(** * drf_roles.mixins: role- and permission-scoped dispatch for viewsets

    A shallow embedding of [src/drf_roles/mixins.py].  The module wraps a
    whitelist of viewset methods; a wrapped method first tries a method
    named [<fn>_for_<role>] (or [<fn>_for_<permission>]) and falls back to
    the superclass implementation of [<fn>].

    Modelling choices:
    - Python [str] values are [string]; [str.lower] is modelled on ASCII
      letters (on ASCII names it coincides with Python's, other bytes are
      left alone).
    - Python [set]s of names are [gset string]; the class namespace that
      [setattr] writes to is a [gmap string _].
    - Exceptions are an [outcome]; the code under a [try] runs in a small
      state-and-exception monad [M] whose state carries the world the
      handlers act on and a trace of what the dispatch layer did.
    - A bound method obtained by [getattr] is a function from arguments
      and the world to an outcome and a new world. *)

From stdpp Require Import gmap strings list.
From Stdlib Require Import Ascii String.

Local Open Scope string_scope.
Local Open Scope nat_scope.
Local Open Scope list_scope.

(** ** Strings *)

(** [str.lower] on one ASCII character. *)
Definition lower_ascii (c : ascii) : ascii :=
  let n := nat_of_ascii c in
  if (65 <=? n)%nat && (n <=? 90)%nat then ascii_of_nat (n + 32) else c.

(** [str.lower] *)
Fixpoint lower (s : string) : string :=
  match s with
  | EmptyString => EmptyString
  | String c s' => String (lower_ascii c) (lower s')
  end.

(** ["{}_for_{}".format(fn, name)] *)
Definition format_for (fn name : string) : string :=
  fn +:+ "_for_" +:+ name.

(** ** Exceptions *)

(** The exception classes the module distinguishes: the two named in its
    [except] clauses, and everything else by class name.  An
    [AttributeError] carries the name of the attribute (its message in
    short), a [RoleError] its message. *)
Inductive exn : Type :=
  | AttributeError (attr : string)
  | RoleError (msg : string)
  | OtherError (cls msg : string).

Inductive outcome (A : Type) : Type :=
  | Return (a : A)
  | Raise (e : exn).
Arguments Return {A} a.
Arguments Raise {A} e.

(** [except (AttributeError, RoleError)] *)
Definition caught (e : exn) : bool :=
  match e with
  | AttributeError _ | RoleError _ => true
  | OtherError _ _ => false
  end.

(** ** The identity store, as read by the module *)

Record User : Type := mkUser {
  groups : list string;        (* names of [user.groups.all()] *)
  has_perm : string → bool     (* [user.has_perm(name)] *)
}.

(** ** Module-level defaults *)

(** [DEFAULT_GROUPS], from the names of [Group.objects.all()]. *)
Definition DEFAULT_GROUPS (group_names : list string) : list string :=
  lower <$> group_names.

(** [DEFAULT_PERMISSIONS], from the codenames of [Permission.objects.all()]. *)
Definition DEFAULT_PERMISSIONS (codenames : list string) : list string :=
  lower <$> codenames.

Definition DEFAULT_REGISTRY : list string :=
  [ "get_queryset"; "get_serializer_class"; "perform_create";
    "perform_update"; "perform_destroy" ].

(** [getattr(settings, name, default)] for a setting that is either absent
    or a sequence of names. *)
Definition setting (configured : option (list string)) (default : list string)
  : list string :=
  match configured with
  | Some v => v
  | None => default
  end.

(** [_role_groups = set(getattr(settings, "ROLE_GROUPS", DEFAULT_GROUPS))] *)
Definition make_role_groups (ROLE_GROUPS : option (list string))
    (group_names : list string) : gset string :=
  list_to_set (setting ROLE_GROUPS (DEFAULT_GROUPS group_names)).

(** ** RoleViewSetMixin._get_role *)

(** [user_role = self._role_groups.intersection(user_groups)] *)
Definition user_role_set (_role_groups : gset string) (user : User)
  : gset string :=
  let user_groups : gset string := list_to_set (lower <$> groups user) in
  _role_groups ∩ user_groups.

(** [set.pop()]: removes and returns an element, [KeyError] when empty. *)
Definition set_pop (s : gset string) : outcome string :=
  match elements s with
  | x :: _ => Return x
  | [] => Raise (OtherError "KeyError" "pop from an empty set")
  end.

Definition _get_role (_role_groups : gset string) (user : User)
  : outcome string :=
  let user_role := user_role_set _role_groups user in
  if size user_role <? 1 then
    Raise (RoleError "The user is not a member of any role groups")
  else if 1 <? size user_role then
    Raise (RoleError "The user is a member of multiple role groups")
  else set_pop user_role.

(** ** Running code: state, exceptions, [try]/[except] *)

(** Whose attribute a call went through: [self] or [super(Mixin, self)]. *)
Inductive receiver : Type := Self | Super.

(** What the dispatch layer itself does, in order. *)
Inductive event : Type :=
  | EvHasPerm (permission : string)          (* [user.has_perm(permission)] *)
  | EvCall (r : receiver) (name : string).   (* a bound method was called *)

(** The permissions [has_perm] was asked about, oldest first. *)
Definition checked_permissions (tr : list event) : list string :=
  omap (fun ev => match ev with
                  | EvHasPerm p => Some p
                  | EvCall _ _ => None
                  end) tr.

Section Dispatch.
Context {Val Args World : Type}.

Record State : Type := mkState {
  world : World;
  trace : list event
}.

Definition M (A : Type) : Type := State → outcome A * State.

Definition ret {A} (a : A) : M A := fun st => (Return a, st).
Definition raise {A} (e : exn) : M A := fun st => (Raise e, st).
Definition bind {A B} (k : A → M B) (c : M A) : M B :=
  fun st =>
    match c st with
    | (Return a, st') => k a st'
    | (Raise e, st') => (Raise e, st')
    end.
#[export] Instance M_ret : MRet M := @ret.
#[export] Instance M_bind : MBind M := @bind.
Definition lift {A} (o : outcome A) : M A := fun st => (o, st).

(** [try: body  except <classes>: handler]; an exception of another
    class, or one raised by the handler, goes to the caller. *)
Definition try_except {A} (body : M A) (classes : exn → bool)
    (handler : M A) : M A :=
  fun st =>
    match body st with
    | (Return a, st') => (Return a, st')
    | (Raise e, st') =>
        if classes e then handler st' else (Raise e, st')
    end.

(** A bound method: called with the arguments, it acts on the world and
    returns or raises. *)
Definition Method : Type := Args → World → outcome Val * World.

(** A resource object deriving from one of the mixins.  [attrs] is what
    [getattr(self, name)] resolves to, [super_attrs] what
    [getattr(super(Mixin, self), name)] resolves to (the classes after
    the mixin in the method resolution order). *)
Record Resource : Type := mkResource {
  request_user : User;               (* [self.request.user] *)
  _role_groups : gset string;        (* [self._role_groups] *)
  attrs : gmap string Method;
  super_attrs : gmap string Method
}.

Definition getattr (ns : gmap string Method) (name : string) : M Method :=
  match ns !! name with
  | Some m => ret m
  | None => raise (AttributeError name)
  end.

(** [m( *args, **kwargs)] *)
Definition call (r : receiver) (name : string) (m : Method) (args : Args)
  : M Val :=
  fun st =>
    let (res, w) := m args (world st) in
    (res, mkState w (trace st ++ [EvCall r name])).

(** [user.has_perm(permission)] *)
Definition user_has_perm (user : User) (permission : string) : M bool :=
  fun st =>
    (Return (has_perm user permission),
     mkState (world st) (trace st ++ [EvHasPerm permission])).

End Dispatch.

Arguments State : clear implicits.
Arguments M : clear implicits.
Arguments Method : clear implicits.
Arguments Resource : clear implicits.

Section Mixins.
Context {Val Args World : Type}.

Abbreviation Resource := (Resource Val Args World).
Abbreviation Method := (Method Val Args World).
Abbreviation State := (State World).

(** [getattr(super(Mixin, self), fn)( *args, **kwargs)] *)
Definition super_call (self : Resource) (fn : string) (args : Args)
  : M World Val :=
  m ← getattr (super_attrs self) fn ;
  call Super fn m args.

(** The state once [has_perm] has been asked about [permission]. *)
Definition checked (permission : string) (st : State) : State :=
  mkState (world st) (trace st ++ [EvHasPerm permission]).

(** *** RoleViewSetMixin._call_role_fn *)
Definition _call_role_fn (self : Resource) (fn : string) (args : Args)
  : M World Val :=
  try_except
    (role_name ← lift (_get_role (_role_groups self) (request_user self)) ;
     let role_fn := format_for fn role_name in
     m ← getattr (attrs self) role_fn ;
     call Self role_fn m args)
    caught
    (super_call self fn args).

(** *** PermissionViewSetMixin._call_permission_fn *)
Definition _call_permission_fn (self : Resource) (fn permission : string)
    (args : Args) : M World Val :=
  try_except
    (held ← user_has_perm (request_user self) permission ;
     (if negb held
      then raise (RoleError "The user does not have the required permission")
      else ret tt) ;;
     let permission_fn := format_for fn permission in
     m ← getattr (attrs self) permission_fn ;
     call Self permission_fn m args)
    caught
    (super_call self fn args).

(** *** Registration

    [register_fn] and [register_permission_fn] bind a closure [inner]
    on the mixin class with [setattr].  A closure is represented by the
    variables it captures, the class by its namespace. *)

(** [inner] of [register_fn] captures [fn]. *)
Record role_inner : Type := RoleInner { ri_fn : string }.

(** [inner] of [register_permission_fn] captures [fn] and [permission]. *)
Record permission_inner : Type :=
  PermissionInner { pi_fn : string; pi_permission : string }.

Definition role_inner_call (c : role_inner) (self : Resource)
    (args : Args) : M World Val :=
  _call_role_fn self (ri_fn c) args.

Definition permission_inner_call (c : permission_inner) (self : Resource)
    (args : Args) : M World Val :=
  _call_permission_fn self (pi_fn c) (pi_permission c) args.

Definition register_fn (fn : string) (cls : gmap string role_inner)
  : gmap string role_inner :=
  <[fn := RoleInner fn]> cls.

Definition register_permission_fn (permission fn : string)
    (cls : gmap string permission_inner) : gmap string permission_inner :=
  <[fn := PermissionInner fn permission]> cls.

(** The loop that ends the module: [for fn in
    RoleViewSetMixin._viewset_method_registry: register_fn(fn)]. *)
Definition register_registry (_viewset_method_registry : gset string)
    (cls : gmap string role_inner) : gmap string role_inner :=
  foldl (fun cls fn => register_fn fn cls) cls
        (elements _viewset_method_registry).

(** [PermissionViewSetMixin.__init__]: its only effect is on the class. *)
Definition __init__ (_permissions : list string)
    (_viewset_method_registry : gset string)
    (cls : gmap string permission_inner) : gmap string permission_inner :=
  foldl (fun cls permission =>
           foldl (fun cls fn => register_permission_fn permission fn cls)
                 cls (elements _viewset_method_registry))
        cls _permissions.

(** [self.fn( *args, **kwargs)] on a resource whose own class does not
    define [fn]: the method resolution order reaches the mixin class,
    and goes on to the classes after it when the mixin has no [fn]. *)
Definition invoke_role (cls : gmap string role_inner) (self : Resource)
    (fn : string) (args : Args) : M World Val :=
  match cls !! fn with
  | Some c => role_inner_call c self args
  | None => super_call self fn args
  end.

Definition invoke_permission (cls : gmap string permission_inner)
    (self : Resource) (fn : string) (args : Args) : M World Val :=
  match cls !! fn with
  | Some c => permission_inner_call c self args
  | None => super_call self fn args
  end.

End Mixins.

(** [_viewset_method_registry =
     set(getattr(settings, "VIEWSET_METHOD_REGISTRY", DEFAULT_REGISTRY))] *)
Definition make_registry (VIEWSET_METHOD_REGISTRY : option (list string))
  : gset string :=
  list_to_set (setting VIEWSET_METHOD_REGISTRY DEFAULT_REGISTRY).

(** ** Concrete resources for the examples

    Results and arguments are strings; the world is the list of handler
    names that ran, oldest first. *)
Module Examples.

Definition V : Type := string.
Definition A : Type := list string.
Definition W : Type := list string.

(** A handler that records its name and returns [v]. *)
Definition returns (name v : string) : Method V A W :=
  fun _ w => (Return v, w ++ [name]).

(** A handler that records its name and raises [e]. *)
Definition raises (name : string) (e : exn) : Method V A W :=
  fun _ w => (Raise e, w ++ [name]).

Definition st0 : State W := mkState [] [].

Definition caller (gs : list string) (perms : list string) : User :=
  mkUser gs (fun p => bool_decide (p ∈ perms)).

(** Role groups [admin] and [viewer], registry [list]; the resource
    defines [list_for_admin] returning [A], the base [list] returns [B]. *)
Definition scenario (gs : list string) : Resource V A W :=
  mkResource (caller gs []) {[ "admin"; "viewer" ]}
    {[ "list_for_admin" := returns "list_for_admin" "A" ]}
    {[ "list" := returns "list" "B" ]}.

(** The same resource, but [list_for_admin] trips over a missing
    attribute of its own and raises [AttributeError]. *)
Definition scenario_failing_handler (e : exn) : Resource V A W :=
  mkResource (caller ["admin"] []) {[ "admin"; "viewer" ]}
    {[ "list_for_admin" := raises "list_for_admin" e ]}
    {[ "list" := returns "list" "B" ]}.

(** Permission catalog [can_edit], registry [update]; the caller holds
    [can_edit]; the base [update] returns [B]. *)
Definition permission_scenario (held : list string)
    (own : gmap string (Method V A W)) : Resource V A W :=
  mkResource (caller [] held) ∅ own
    {[ "update" := returns "update" "B" ]}.

(** The group is stored as [Admin]; the role groups are the default
    ones; the resource spells its method with the stored name. *)
Definition stored_spelling : Resource V A W :=
  mkResource (caller ["Admin"] []) (make_role_groups None ["Admin"])
    {[ "list_for_Admin" := returns "list_for_Admin" "A" ]}
    {[ "list" := returns "list" "B" ]}.

(** [ROLE_GROUPS = ["Admin"]] in the settings, a caller in [Admin]. *)
Definition configured_Admin : gset string :=
  make_role_groups (Some ["Admin"]) ["Admin"].

(** A caller without groups or permissions; the base [list] raises a
    [RoleError] of its own. *)
Definition base_raising_RoleError : Resource V A W :=
  mkResource (caller [] []) {[ "admin"; "viewer" ]} ∅
    {[ "list" := raises "list" (RoleError "raised by the base") ]}.

(** A caller without groups or permissions on a resource whose base
    classes have no [list]. *)
Definition no_base : Resource V A W :=
  mkResource (caller [] []) {[ "admin"; "viewer" ]} ∅ ∅.

(** A caller in [admin]; the resource has [retrieve_for_admin], and
    [retrieve] comes from the base classes. *)
Definition retrieve_scenario : Resource V A W :=
  mkResource (caller ["admin"] []) {[ "admin"; "viewer" ]}
    {[ "retrieve_for_admin" := returns "retrieve_for_admin" "A" ]}
    {[ "retrieve" := returns "retrieve" "B" ]}.

(** A caller in [admin] on a resource without role methods. *)
Definition scenario_bare : Resource V A W :=
  mkResource (caller ["admin"] []) {[ "admin"; "viewer" ]} ∅
    {[ "list" := returns "list" "B" ]}.

(** [ROLE_GROUPS = ["Admin"; "viewer"]] in the settings; the caller is in
    the groups [Admin] and [viewer]; the resource defines
    [list_for_viewer] returning [V], the base [list] returns [B]. *)
Definition mixed_case_config : Resource V A W :=
  mkResource (caller ["Admin"; "viewer"] [])
    (make_role_groups (Some ["Admin"; "viewer"]) ["Admin"; "viewer"])
    {[ "list_for_viewer" := returns "list_for_viewer" "V" ]}
    {[ "list" := returns "list" "B" ]}.

(** A caller in the group stored as [Admin] who holds [Can_Edit]; the
    resource defines [list_for_admin] and [list_for_Can_Edit]. *)
Definition naming_resource : Resource V A W :=
  mkResource (caller ["Admin"] ["Can_Edit"]) {[ "admin"; "viewer" ]}
    {[ "list_for_admin" := returns "list_for_admin" "A";
       "list_for_Can_Edit" := returns "list_for_Can_Edit" "P" ]}
    {[ "list" := returns "list" "B" ]}.

(** The same, with two more methods under the other spellings. *)
Definition naming_resource_more : Resource V A W :=
  mkResource (caller ["Admin"] ["Can_Edit"]) {[ "admin"; "viewer" ]}
    {[ "list_for_admin" := returns "list_for_admin" "A";
       "list_for_Can_Edit" := returns "list_for_Can_Edit" "P";
       "list_for_Admin" := returns "list_for_Admin" "X";
       "list_for_can_edit" := returns "list_for_can_edit" "Y" ]}
    {[ "list" := returns "list" "B" ]}.

End Examples.
Import Examples.

(** ** Membership in role groups, in the words of the specification *)

(** The caller belongs to the configured role group [r]: [r] is configured
    and is the lowercased name of one of the caller's groups. *)
Definition in_role_group (rg : gset string) (user : User) (r : string)
  : Prop :=
  r ∈ rg ∧ ∃ g, g ∈ groups user ∧ lower g = r.

Definition exactly_one_role_group (rg : gset string) (user : User)
    (r : string) : Prop :=
  in_role_group rg user r ∧ ∀ r', in_role_group rg user r' → r' = r.

Definition no_role_group (rg : gset string) (user : User) : Prop :=
  ∀ r, ¬ in_role_group rg user r.

Definition several_role_groups (rg : gset string) (user : User) : Prop :=
  ∃ r1 r2, r1 ≠ r2 ∧ in_role_group rg user r1 ∧ in_role_group rg user r2.

(** ** The claims that fail, as they are stated *)

(** The configured role groups the caller belongs to when names are
    compared without regard to case on both sides. *)
Definition case_insensitive_role_set (rg : gset string) (user : User)
  : gset string :=
  filter (fun r => lower r ∈ (lower <$> groups user)) rg.

(** Role resolution by case-insensitive intersection: one element is the
    role, any other number is a [RoleError]. *)
Definition resolves_case_insensitively (rg : gset string) (user : User)
  : Prop :=
  (∀ x, case_insensitive_role_set rg user = {[ x ]} →
        _get_role rg user = Return x) ∧
  (size (case_insensitive_role_set rg user) ≠ 1 →
   ∃ msg, _get_role rg user = Raise (RoleError msg)).

(** Every permission and operation has its [<operation>_for_<permission>]
    on the class after [__init__]. *)
Definition synthesizes_permission_methods (perms : list string)
    (registry : gset string) (cls : gmap string permission_inner) : Prop :=
  ∀ p op, p ∈ perms → op ∈ registry →
    is_Some (__init__ perms registry cls !! format_for op p).

(** The specialised method is looked up under the role name as the
    identity store spells it. *)
Definition dispatches_on_stored_name {Val Args World}
    (self : Resource Val Args World) (fn : string) (args : Args)
    (st : State World) : Prop :=
  ∀ g m, g ∈ groups (request_user self) →
    exactly_one_role_group (_role_groups self) (request_user self) (lower g) →
    attrs self !! format_for fn g = Some m →
    _call_role_fn self fn args st =
      try_except (call Self (format_for fn g) m args) caught
                 (super_call self fn args) st.

(** Two resources that differ at most in what [getattr(self, _)] finds. *)
Definition same_but_attrs {Val Args World}
    (self self' : Resource Val Args World) : Prop :=
  request_user self = request_user self' ∧
  _role_groups self = _role_groups self' ∧
  super_attrs self = super_attrs self'.

(** The base implementation of [fn] exists and raises [e] on [args]. *)
Definition base_raises {Val Args World} (self : Resource Val Args World)
    (fn : string) (args : Args) (e : exn) : Prop :=
  ∃ m w, super_attrs self !! fn = Some m ∧ (m args w).1 = Raise e.

(** A method of the resource raises [e] on [args], an exception the
    [except] clause does not name. *)
Definition specialised_raises {Val Args World}
    (self : Resource Val Args World) (args : Args) (e : exn) : Prop :=
  ∃ name m w, attrs self !! name = Some m ∧ (m args w).1 = Raise e ∧
              caught e = false.

(** ** Facts about [_get_role] *)

Lemma elem_of_user_role_set rg user r :
  r ∈ user_role_set rg user ↔ in_role_group rg user r.
Proof.
  unfold user_role_set, in_role_group.
  rewrite elem_of_intersection, elem_of_list_to_set, list_elem_of_fmap.
  split; intros [Hr (g & H1 & H2)]; split; eauto.
Qed.

Lemma set_pop_singleton (x : string) : set_pop {[ x ]} = Return x.
Proof. unfold set_pop. by rewrite elements_singleton. Qed.

Lemma _get_role_singleton rg user r :
  user_role_set rg user = {[ r ]} → _get_role rg user = Return r.
Proof.
  intros H. unfold _get_role. rewrite H, size_singleton. simpl.
  apply set_pop_singleton.
Qed.

Lemma _get_role_Return rg user r :
  _get_role rg user = Return r ↔ user_role_set rg user = {[ r ]}.
Proof.
  split; [| apply _get_role_singleton].
  unfold _get_role.
  destruct (size (user_role_set rg user) <? 1) eqn:E1; [done |].
  destruct (1 <? size (user_role_set rg user)) eqn:E2; [done |].
  apply Nat.ltb_ge in E1, E2.
  assert (Hs : size (user_role_set rg user) = 1) by lia.
  apply size_1_elem_of in Hs as [x Hx]. apply leibniz_equiv in Hx.
  rewrite Hx, set_pop_singleton. by intros [= ->].
Qed.

Lemma _get_role_RoleError rg user :
  size (user_role_set rg user) ≠ 1 →
  ∃ msg, _get_role rg user = Raise (RoleError msg).
Proof.
  intros Hs. unfold _get_role.
  destruct (size (user_role_set rg user) <? 1) eqn:E1; [eauto |].
  destruct (1 <? size (user_role_set rg user)) eqn:E2; [eauto |].
  apply Nat.ltb_ge in E1, E2. lia.
Qed.

(** [_get_role] returns a role or raises [RoleError], nothing else. *)
Lemma _get_role_cases rg user :
  (∃ r, _get_role rg user = Return r ∧ user_role_set rg user = {[ r ]}) ∨
  (∃ msg, _get_role rg user = Raise (RoleError msg) ∧
          size (user_role_set rg user) ≠ 1).
Proof.
  destruct (decide (size (user_role_set rg user) = 1)) as [Hs | Hs].
  - left. apply size_1_elem_of in Hs as [x Hx]. apply leibniz_equiv in Hx.
    exists x. split; [by apply _get_role_singleton | done].
  - right. destruct (_get_role_RoleError _ _ Hs) as [msg Hm]. eauto.
Qed.

Lemma exactly_one_role_group_set rg user r :
  exactly_one_role_group rg user r ↔ user_role_set rg user = {[ r ]}.
Proof.
  unfold exactly_one_role_group. split.
  - intros [Hin Huniq]. apply set_eq. intros x.
    rewrite elem_of_singleton, elem_of_user_role_set.
    split; [apply Huniq | by intros ->].
  - intros H. split.
    + apply elem_of_user_role_set. rewrite H. set_solver.
    + intros r' Hr'. apply elem_of_user_role_set in Hr'.
      rewrite H in Hr'. set_solver.
Qed.

Lemma no_role_group_size rg user :
  no_role_group rg user → size (user_role_set rg user) = 0.
Proof.
  intros H. apply size_empty_iff, elem_of_equiv_empty. intros x Hx.
  apply elem_of_user_role_set in Hx. by apply (H x).
Qed.

Lemma several_role_groups_size rg user :
  several_role_groups rg user → 1 < size (user_role_set rg user).
Proof.
  intros (r1 & r2 & Hne & H1 & H2).
  apply elem_of_user_role_set in H1, H2.
  destruct (decide (size (user_role_set rg user) ≤ 1)) as [Hle | ?]; [| lia].
  destruct (decide (size (user_role_set rg user) = 0)) as [H0 | H0].
  - apply size_empty_iff in H0. set_solver.
  - assert (Hs : size (user_role_set rg user) = 1) by lia.
    apply size_1_elem_of in Hs as [x Hx].
    rewrite Hx in H1, H2. apply elem_of_singleton in H1, H2. congruence.
Qed.

(** ** The two dispatchers, case by case *)

Section DispatchFacts.
Context {Val Args World : Type}.
Implicit Types (self : Resource Val Args World) (st : State World).
Implicit Types (m : Method Val Args World) (args : Args).

Lemma super_call_found self fn args st m :
  super_attrs self !! fn = Some m →
  super_call self fn args st = call Super fn m args st.
Proof.
  intros H. unfold super_call, getattr, mbind, M_bind, bind.
  by rewrite H.
Qed.

Lemma super_call_missing self fn args st :
  super_attrs self !! fn = None →
  super_call self fn args st = (Raise (AttributeError fn), st).
Proof.
  intros H. unfold super_call, getattr, mbind, M_bind, bind.
  by rewrite H.
Qed.

Lemma _call_role_fn_unresolved self fn args st msg :
  _get_role (_role_groups self) (request_user self) = Raise (RoleError msg) →
  _call_role_fn self fn args st = super_call self fn args st.
Proof.
  intros H. unfold _call_role_fn, try_except, mbind, M_bind, bind, lift.
  by rewrite H.
Qed.

Lemma _call_role_fn_missing self fn args st r :
  _get_role (_role_groups self) (request_user self) = Return r →
  attrs self !! format_for fn r = None →
  _call_role_fn self fn args st = super_call self fn args st.
Proof.
  intros H Hm.
  unfold _call_role_fn, try_except, mbind, M_bind, bind, lift, getattr.
  by rewrite H, Hm.
Qed.

Lemma _call_role_fn_found self fn args st r m :
  _get_role (_role_groups self) (request_user self) = Return r →
  attrs self !! format_for fn r = Some m →
  _call_role_fn self fn args st =
    try_except (call Self (format_for fn r) m args) caught
               (super_call self fn args) st.
Proof.
  intros H Hm.
  unfold _call_role_fn, try_except, mbind, M_bind, bind, lift, getattr.
  by rewrite H, Hm.
Qed.

Lemma _call_permission_fn_denied self fn p args st :
  has_perm (request_user self) p = false →
  _call_permission_fn self fn p args st =
    super_call self fn args (checked p st).
Proof.
  intros H.
  unfold _call_permission_fn, try_except, mbind, M_bind, bind,
    user_has_perm.
  by rewrite H.
Qed.

Lemma _call_permission_fn_missing self fn p args st :
  attrs self !! format_for fn p = None →
  _call_permission_fn self fn p args st =
    super_call self fn args (checked p st).
Proof.
  intros Hm.
  unfold _call_permission_fn, try_except, mbind, M_bind, bind,
    user_has_perm, getattr.
  rewrite Hm. by destruct (has_perm (request_user self) p).
Qed.

Lemma _call_permission_fn_found self fn p args st m :
  has_perm (request_user self) p = true →
  attrs self !! format_for fn p = Some m →
  _call_permission_fn self fn p args st =
    try_except (call Self (format_for fn p) m args) caught
               (super_call self fn args) (checked p st).
Proof.
  intros H Hm.
  unfold _call_permission_fn, try_except, mbind, M_bind, bind,
    user_has_perm, getattr.
  by rewrite H, Hm.
Qed.

(** A specialised method that returns, or raises an exception of a class
    the [except] clause does not name, decides the result alone. *)
Lemma try_call_decides r name m args (handler : M World Val) st res w :
  m args (world st) = (res, w) →
  (∀ e, res = Raise e → caught e = false) →
  try_except (call r name m args) caught handler st =
    (res, mkState w (trace st ++ [EvCall r name])).
Proof.
  intros Hm Hres. unfold try_except, call. rewrite Hm.
  destruct res as [v | e]; [done |]. by rewrite (Hres e).
Qed.

(** One that raises [AttributeError] or [RoleError] is followed by the
    handler, on the world it left behind. *)
Lemma try_call_caught r name m args (handler : M World Val) st e w :
  m args (world st) = (Raise e, w) →
  caught e = true →
  try_except (call r name m args) caught handler st =
    handler (mkState w (trace st ++ [EvCall r name])).
Proof.
  intros Hm He. unfold try_except, call. by rewrite Hm, He.
Qed.

End DispatchFacts.

(** ** What registration leaves on the class *)

Section RegistrationFacts.

Lemma foldl_insert_lookup {V} (f : string → V) (l : list string)
    (cls : gmap string V) (k : string) :
  foldl (fun cls fn => <[fn := f fn]> cls) cls l !! k =
    if decide (k ∈ l) then Some (f k) else cls !! k.
Proof.
  revert cls. induction l as [| x l IH]; intros cls; cbn [foldl].
  - by rewrite decide_False by apply not_elem_of_nil.
  - rewrite IH. destruct (decide (k ∈ l)) as [Hl | Hl].
    + by rewrite decide_True by (apply elem_of_cons; by right).
    + destruct (decide (k = x)) as [-> | Hne].
      * rewrite lookup_insert_eq.
        by rewrite decide_True by (apply elem_of_cons; by left).
      * rewrite lookup_insert_ne by done.
        rewrite decide_False; [done |].
        intros [? | ?]%elem_of_cons; congruence.
Qed.

Lemma register_registry_lookup (registry : gset string) cls k :
  register_registry registry cls !! k =
    if decide (k ∈ registry) then Some (RoleInner k) else cls !! k.
Proof.
  unfold register_registry, register_fn.
  rewrite (foldl_insert_lookup RoleInner).
  destruct (decide (k ∈ elements registry)) as [H | H];
    rewrite elem_of_elements in H.
  - by rewrite decide_True.
  - by rewrite decide_False.
Qed.

(** One round of the inner loop of [__init__]. *)
Lemma register_permission_round_lookup p (registry : gset string) cls k :
  foldl (fun cls fn => register_permission_fn p fn cls) cls
        (elements registry) !! k =
    if decide (k ∈ registry) then Some (PermissionInner k p) else cls !! k.
Proof.
  unfold register_permission_fn.
  rewrite (foldl_insert_lookup (fun fn => PermissionInner fn p)).
  destruct (decide (k ∈ elements registry)) as [H | H];
    rewrite elem_of_elements in H.
  - by rewrite decide_True.
  - by rewrite decide_False.
Qed.

Lemma __init___lookup perms registry cls k :
  __init__ perms registry cls !! k =
    if decide (k ∈ registry) then
      match last perms with
      | Some p => Some (PermissionInner k p)
      | None => cls !! k
      end
    else cls !! k.
Proof.
  unfold __init__. revert cls.
  induction perms as [| p perms IH]; intros cls; cbn [foldl].
  - by destruct (decide (k ∈ registry)).
  - rewrite IH, register_permission_round_lookup, last_cons.
    destruct (decide (k ∈ registry)); [| done].
    by destruct (last perms).
Qed.

Lemma __init___idempotent perms registry cls :
  __init__ perms registry (__init__ perms registry cls) =
    __init__ perms registry cls.
Proof.
  apply map_eq. intros k. rewrite !__init___lookup.
  destruct (decide (k ∈ registry)); [| done].
  by destruct (last perms).
Qed.

Lemma __init___iter perms registry cls n :
  Nat.iter (S n) (__init__ perms registry) cls =
    __init__ perms registry cls.
Proof.
  induction n as [| n IH]; [done |].
  change (Nat.iter (S (S n)) (__init__ perms registry) cls)
    with (__init__ perms registry
            (Nat.iter (S n) (__init__ perms registry) cls)).
  rewrite IH. apply __init___idempotent.
Qed.

End RegistrationFacts.

(** ** Role dispatch *)

Section RoleDispatch.
Context {Val Args World : Type}.
Implicit Types (self : Resource Val Args World) (st : State World).
Implicit Types (m : Method Val Args World) (args : Args).

Lemma invoke_role_registered (registry : gset string) cls self fn args st :
  fn ∈ registry →
  invoke_role (register_registry registry cls) self fn args st =
    _call_role_fn self fn args st.
Proof.
  intros Hfn. unfold invoke_role.
  rewrite register_registry_lookup, decide_True by done. done.
Qed.

(** With exactly one role group and a specialised method that returns,
    or raises outside the [except] clause, the method's outcome is the
    result, and the base implementation is not called. *)
Lemma _call_role_fn_specialised self fn args st r m res w :
  exactly_one_role_group (_role_groups self) (request_user self) r →
  attrs self !! format_for fn r = Some m →
  m args (world st) = (res, w) →
  (∀ e, res = Raise e → caught e = false) →
  _call_role_fn self fn args st =
    (res, mkState w (trace st ++ [EvCall Self (format_for fn r)])).
Proof.
  intros Hone Hm Hrun Hres.
  apply exactly_one_role_group_set, _get_role_singleton in Hone.
  rewrite (_call_role_fn_found _ _ _ _ _ _ Hone Hm).
  by apply try_call_decides.
Qed.

(** With exactly one role group and no specialised method, the base
    implementation is called. *)
Lemma _call_role_fn_unspecialised self fn args st r :
  exactly_one_role_group (_role_groups self) (request_user self) r →
  attrs self !! format_for fn r = None →
  _call_role_fn self fn args st = super_call self fn args st.
Proof.
  intros Hone Hm.
  apply exactly_one_role_group_set, _get_role_singleton in Hone.
  by apply (_call_role_fn_missing _ _ _ _ r).
Qed.

(** X21: when the set that [_get_role] computes, the configured names
    that are the lowercased name of one of the caller's groups, is empty
    or has two or more elements, a registered operation is the call of
    the base implementation, whatever [<operation>_for_<role>] methods
    the resource defines. *)
Theorem zero_or_several_role_groups_call_base
    (registry : gset string) cls self fn args st :
  fn ∈ registry →
  no_role_group (_role_groups self) (request_user self) ∨
    several_role_groups (_role_groups self) (request_user self) →
  invoke_role (register_registry registry cls) self fn args st =
    super_call self fn args st.
Proof.
  intros Hfn Hgroups. rewrite invoke_role_registered by done.
  assert (Hs : size (user_role_set (_role_groups self)
                       (request_user self)) ≠ 1).
  { destruct Hgroups as [H | H].
    - apply no_role_group_size in H. lia.
    - apply several_role_groups_size in H. lia. }
  destruct (_get_role_RoleError _ _ Hs) as [msg Hmsg].
  by apply (_call_role_fn_unresolved _ _ _ _ msg).
Qed.

End RoleDispatch.

Lemma zero_or_several_role_groups_call_base_witness :
  "list" ∈ ({[ "list" ]} : gset string) ∧
  several_role_groups {[ "admin"; "viewer" ]} (caller ["admin"; "viewer"] []) ∧
  invoke_role (register_registry {[ "list" ]} ∅)
      (scenario ["admin"; "viewer"]) "list" [] st0 =
    (Return "B", mkState ["list"] [EvCall Super "list"]).
Proof.
  assert (Hreg : "list" ∈ ({[ "list" ]} : gset string))
    by (by apply elem_of_singleton).
  assert (Hsev : several_role_groups {[ "admin"; "viewer" ]}
                   (caller ["admin"; "viewer"] [])).
  { exists "admin", "viewer". split; [done |].
    split; (split; [set_solver |]).
    - exists "admin". split; [set_solver | done].
    - exists "viewer". split; [set_solver | done]. }
  split; [exact Hreg |]. split; [exact Hsev |].
  rewrite (zero_or_several_role_groups_call_base {[ "list" ]} ∅
             (scenario ["admin"; "viewer"]) "list" [] st0 Hreg
             (or_intror Hsev)).
  reflexivity.
Defined.

(** C2: with [ROLE_GROUPS = ["Admin"; "viewer"]] a caller in the groups
    [Admin] and [viewer] is in two configured role groups, by name and
    up to case alike, yet the registered operation [list] does not call
    the base implementation: only the configured [viewer] survives the
    intersection with the lowercased names, the role resolves to it and
    [list_for_viewer] decides the result. *)
Theorem two_configured_groups_resolve_to_one_role :
  (∀ g, g ∈ groups (request_user mixed_case_config) →
        g ∈ _role_groups mixed_case_config) ∧
  case_insensitive_role_set (_role_groups mixed_case_config)
      (request_user mixed_case_config) = {[ "Admin"; "viewer" ]} ∧
  size (case_insensitive_role_set (_role_groups mixed_case_config)
          (request_user mixed_case_config)) = 2 ∧
  _get_role (_role_groups mixed_case_config)
      (request_user mixed_case_config) = Return "viewer" ∧
  invoke_role (register_registry {[ "list" ]} ∅) mixed_case_config
      "list" [] st0 =
    (Return "V",
     mkState ["list_for_viewer"] [EvCall Self "list_for_viewer"]) ∧
  super_call mixed_case_config "list" [] st0 =
    (Return "B", mkState ["list"] [EvCall Super "list"]).
Proof.
  split; [| repeat split].
  intros g Hg. simpl in Hg.
  repeat (apply elem_of_cons in Hg as [-> | Hg]; [set_solver |]).
  by apply not_elem_of_nil in Hg.
Qed.

(** C1: the caller is in exactly one role group and [list_for_admin] is
    defined, yet the result is the base implementation's: the specialised
    method raised [AttributeError], the [except] clause took it for a
    missing method, and the base [list] ran after it. *)
Theorem role_handler_AttributeError_chains_to_base :
  let self := scenario_failing_handler (AttributeError "profile") in
  exactly_one_role_group (_role_groups self) (request_user self) "admin" ∧
  attrs self !! "list_for_admin" =
    Some (raises "list_for_admin" (AttributeError "profile")) ∧
  _call_role_fn self "list" [] st0 =
    (Return "B",
     mkState ["list_for_admin"; "list"]
             [EvCall Self "list_for_admin"; EvCall Super "list"]).
Proof.
  split; [| split; reflexivity].
  apply exactly_one_role_group_set. reflexivity.
Qed.

(** ** Role resolution and letter case *)

Lemma lower_ascii_idemp c : lower_ascii (lower_ascii c) = lower_ascii c.
Proof. by destruct c as [[] [] [] [] [] [] [] []]. Qed.

Lemma lower_idemp s : lower (lower s) = lower s.
Proof.
  induction s as [| c s IH]; [done |]. simpl.
  by rewrite lower_ascii_idemp, IH.
Qed.

(** The default role groups are lowercase. *)
Lemma default_role_groups_lowercase names r :
  r ∈ make_role_groups None names → lower r = r.
Proof.
  unfold make_role_groups, setting, DEFAULT_GROUPS.
  rewrite elem_of_list_to_set, list_elem_of_fmap.
  intros (g & -> & _). apply lower_idemp.
Qed.

(** When every configured name is lowercase, the set that [_get_role]
    computes is the case-insensitive intersection. *)
Lemma lowercase_role_set rg user :
  (∀ r, r ∈ rg → lower r = r) →
  user_role_set rg user = case_insensitive_role_set rg user.
Proof.
  intros Hlow. apply set_eq. intros r.
  unfold user_role_set, case_insensitive_role_set.
  rewrite elem_of_intersection, elem_of_filter, elem_of_list_to_set.
  split; intros [H1 H2]; split; try done.
  - by rewrite (Hlow r H1).
  - by rewrite (Hlow r H2) in H1.
Qed.

Lemma lowercase_config_resolves_case_insensitively rg user :
  (∀ r, r ∈ rg → lower r = r) → resolves_case_insensitively rg user.
Proof.
  intros Hlow. unfold resolves_case_insensitively.
  rewrite <- (lowercase_role_set rg user Hlow). split.
  - intros x. apply _get_role_singleton.
  - apply _get_role_RoleError.
Qed.

(** C3: with [ROLE_GROUPS = ["Admin"]] and a caller in the group [Admin],
    the case-insensitive intersection is the one role [Admin], but
    [_get_role] finds no role and raises [RoleError]: the caller's names
    are lowercased, the configured ones are not. *)
Theorem configured_uppercase_role_is_not_resolved :
  case_insensitive_role_set configured_Admin (caller ["Admin"] []) =
    {[ "Admin" ]} ∧
  _get_role configured_Admin (caller ["Admin"] []) =
    Raise (RoleError "The user is not a member of any role groups") ∧
  ¬ resolves_case_insensitively configured_Admin (caller ["Admin"] []).
Proof.
  split; [reflexivity |]. split; [reflexivity |].
  intros [H _]. specialize (H "Admin" eq_refl). discriminate H.
Qed.

(** ** Permission dispatch *)

Section PermissionDispatch.
Context {Val Args World : Type}.
Implicit Types (self : Resource Val Args World) (st : State World).
Implicit Types (m : Method Val Args World) (args : Args).

Lemma checked_permissions_call r name m args st :
  checked_permissions (trace (call r name m args st).2) =
    checked_permissions (trace st).
Proof.
  unfold call. destruct (m args (world st)) as [res w]. simpl.
  unfold checked_permissions. rewrite omap_app. simpl.
  apply app_nil_r.
Qed.

Lemma checked_permissions_super_call self fn args st :
  checked_permissions (trace (super_call self fn args st).2) =
    checked_permissions (trace st).
Proof.
  destruct (super_attrs self !! fn) as [m |] eqn:Hm.
  - rewrite (super_call_found _ _ _ _ m Hm).
    apply checked_permissions_call.
  - by rewrite super_call_missing.
Qed.

Lemma checked_permissions_checked p st :
  checked_permissions (trace (checked p st)) =
    checked_permissions (trace st) ++ [p].
Proof. unfold checked, checked_permissions. simpl. by rewrite omap_app. Qed.

Lemma checked_permissions_try_call name m args (handler : M World Val) st :
  (∀ st', checked_permissions (trace (handler st').2) =
          checked_permissions (trace st')) →
  checked_permissions
    (trace (try_except (call Self name m args) caught handler st).2) =
    checked_permissions (trace st).
Proof.
  intros Hh. unfold try_except.
  pose proof (checked_permissions_call Self name m args st) as Hc.
  destruct (call Self name m args st) as [[v | e] st']; simpl in *.
  - done.
  - destruct (caught e); simpl; [by rewrite Hh | done].
Qed.

(** One call of [_call_permission_fn] asks [has_perm] about its own
    permission, once, and about no other. *)
Lemma _call_permission_fn_checks self fn p args st :
  checked_permissions (trace (_call_permission_fn self fn p args st).2) =
    checked_permissions (trace st) ++ [p].
Proof.
  destruct (has_perm (request_user self) p) eqn:Hheld.
  - destruct (attrs self !! format_for fn p) as [m |] eqn:Hm.
    + rewrite (_call_permission_fn_found _ _ _ _ _ m Hheld Hm).
      rewrite checked_permissions_try_call.
      * apply checked_permissions_checked.
      * intros st'. apply checked_permissions_super_call.
    + rewrite (_call_permission_fn_missing _ _ _ _ _ Hm).
      rewrite checked_permissions_super_call.
      apply checked_permissions_checked.
  - rewrite (_call_permission_fn_denied _ _ _ _ _ Hheld).
    rewrite checked_permissions_super_call.
    apply checked_permissions_checked.
Qed.

(** The caller holds the permission and the specialised method returns,
    or raises outside the [except] clause: its outcome is the result. *)
Lemma _call_permission_fn_specialised self fn p args st m res w :
  has_perm (request_user self) p = true →
  attrs self !! format_for fn p = Some m →
  m args (world st) = (res, w) →
  (∀ e, res = Raise e → caught e = false) →
  _call_permission_fn self fn p args st =
    (res, mkState w (trace st ++ [EvHasPerm p; EvCall Self (format_for fn p)])).
Proof.
  intros Hheld Hm Hrun Hres.
  rewrite (_call_permission_fn_found _ _ _ _ _ m Hheld Hm).
  rewrite (try_call_decides _ _ _ _ _ _ res w); [| done | done].
  simpl. by rewrite <- app_assoc.
Qed.

(** C4, as the code has it: for a permission of the catalog and an
    operation of the registry, [__init__] leaves on the class a wrapper
    under the operation's own name, closed over the last permission of
    the catalog; names outside the registry are not touched, so the
    class has [<operation>_for_<permission>] afterwards exactly when
    that name is itself in the registry or was bound before; and since
    [__init__] runs at every construction, what matters is that running
    it again changes nothing. *)
Theorem init_binds_operation_names perms (registry : gset string)
    (cls : gmap string permission_inner) p op :
  p ∈ perms → op ∈ registry →
  (∃ p', last perms = Some p' ∧
         __init__ perms registry cls !! op = Some (PermissionInner op p')) ∧
  (∀ name, name ∉ registry →
           __init__ perms registry cls !! name = cls !! name) ∧
  (is_Some (__init__ perms registry cls !! format_for op p) ↔
   format_for op p ∈ registry ∨ is_Some (cls !! format_for op p)) ∧
  __init__ perms registry (__init__ perms registry cls) =
    __init__ perms registry cls.
Proof.
  intros Hp Hop.
  assert (Hlast : ∃ p', last perms = Some p').
  { destruct (last perms) as [p' |] eqn:Hlast; [by eauto |].
    apply last_None in Hlast. subst perms.
    by apply not_elem_of_nil in Hp. }
  destruct Hlast as [p' Hlast].
  split; [| split; [| split]].
  - exists p'. split; [done |].
    by rewrite __init___lookup, decide_True, Hlast.
  - intros name Hname. by rewrite __init___lookup, decide_False.
  - rewrite __init___lookup, Hlast.
    destruct (decide (format_for op p ∈ registry)) as [Hin | Hin].
    + split; [by left | by eauto].
    + split; [by right | by intros [? | ?]].
  - apply __init___idempotent.
Qed.

(** C9: however many times [__init__] has run, a registered operation
    is bound on the class to one wrapper, closed over the last
    permission of the catalog; calling it asks [has_perm] about that
    permission and no other; with an empty catalog nothing is bound. *)
Theorem registered_operation_checks_last_permission perms
    (registry : gset string) (cls : gmap string permission_inner)
    n fn self args st :
  fn ∈ registry →
  let cls' := Nat.iter (S n) (__init__ perms registry) cls in
  cls' = __init__ perms registry cls ∧
  cls' !! fn = match last perms with
               | Some p => Some (PermissionInner fn p)
               | None => cls !! fn
               end ∧
  ∀ p, last perms = Some p →
    invoke_permission cls' self fn args st =
      _call_permission_fn self fn p args st ∧
    checked_permissions
      (trace (invoke_permission cls' self fn args st).2) =
      checked_permissions (trace st) ++ [p].
Proof.
  intros Hfn cls'. subst cls'. rewrite __init___iter.
  assert (Hl : __init__ perms registry cls !! fn =
               match last perms with
               | Some p => Some (PermissionInner fn p)
               | None => cls !! fn
               end)
    by (by rewrite __init___lookup, decide_True).
  split; [done |]. split; [done |].
  intros p Hlast. rewrite Hlast in Hl.
  assert (Hinv : invoke_permission (__init__ perms registry cls)
                   self fn args st =
                 _call_permission_fn self fn p args st)
    by (unfold invoke_permission; by rewrite Hl).
  split; [done |]. rewrite Hinv. apply _call_permission_fn_checks.
Qed.

End PermissionDispatch.

(** With catalog [can_edit] and registry [update], the class has no
    [update_for_can_edit] after [__init__]. *)
Lemma no_permission_method_is_synthesized :
  ¬ synthesizes_permission_methods ["can_edit"] {[ "update" ]} ∅.
Proof.
  intros H.
  destruct (H "can_edit" "update") as [c Hc].
  - apply list_elem_of_singleton. reflexivity.
  - apply elem_of_singleton. reflexivity.
  - vm_compute in Hc. discriminate Hc.
Qed.

Lemma init_binds_operation_names_witness :
  "can_edit" ∈ ["can_view"; "can_edit"] ∧
  "update" ∈ ({[ "update" ]} : gset string) ∧
  __init__ ["can_view"; "can_edit"] {[ "update" ]} ∅ !! "update" =
    Some (PermissionInner "update" "can_edit") ∧
  __init__ ["can_view"; "can_edit"] {[ "update" ]} ∅
    !! "update_for_can_edit" = None ∧
  ¬ is_Some (__init__ ["can_view"; "can_edit"] {[ "update" ]} ∅
               !! format_for "update" "can_edit").
Proof.
  assert (Hp : "can_edit" ∈ ["can_view"; "can_edit"])
    by (apply elem_of_cons; right; by apply list_elem_of_singleton).
  assert (Hop : "update" ∈ ({[ "update" ]} : gset string))
    by (by apply elem_of_singleton).
  split; [exact Hp |]. split; [exact Hop |].
  destruct (init_binds_operation_names ["can_view"; "can_edit"]
              {[ "update" ]} ∅ "can_edit" "update" Hp Hop)
    as [(p' & Hlast & Hbound) (Hrest & Hfor & _)].
  split; [| split].
  - rewrite Hbound. simpl in Hlast. by injection Hlast as <-.
  - rewrite Hrest; [reflexivity |].
    intros Hin. apply elem_of_singleton in Hin. discriminate Hin.
  - intros Hsome. apply Hfor in Hsome as [Hin | [c Hc]].
    + apply elem_of_singleton in Hin. discriminate Hin.
    + discriminate Hc.
Defined.

Lemma registered_operation_checks_last_permission_witness :
  "update" ∈ ({[ "update" ]} : gset string) ∧
  Nat.iter 3 (__init__ ["can_view"; "can_edit"] {[ "update" ]}) ∅
    !! "update" = Some (PermissionInner "update" "can_edit") ∧
  checked_permissions
    (trace (invoke_permission
              (Nat.iter 3 (__init__ ["can_view"; "can_edit"] {[ "update" ]}) ∅)
              (permission_scenario ["can_view"] ∅) "update" [] st0).2) =
    ["can_edit"].
Proof.
  assert (Hop : "update" ∈ ({[ "update" ]} : gset string))
    by (by apply elem_of_singleton).
  split; [exact Hop |].
  destruct (registered_operation_checks_last_permission
              ["can_view"; "can_edit"] {[ "update" ]} ∅ 2 "update"
              (permission_scenario ["can_view"] ∅) [] st0 Hop)
    as (_ & Hbound & Hcall).
  split; [exact Hbound |].
  destruct (Hcall "can_edit" eq_refl) as [_ Hchecks]. exact Hchecks.
Defined.

(** C5: the caller holds [can_edit] and the resource overrides
    [update_for_can_edit], yet the result is the base implementation's:
    the override raised [AttributeError], the [except] clause took it
    for a missing override, and the base [update] ran after it. *)
Theorem permission_handler_AttributeError_chains_to_base :
  let own : gmap string (Method V A W) :=
    {[ "update_for_can_edit" :=
         raises "update_for_can_edit" (AttributeError "profile") ]} in
  let self := permission_scenario ["can_edit"] own in
  let cls := __init__ ["can_edit"] {[ "update" ]} ∅ in
  has_perm (request_user self) "can_edit" = true ∧
  attrs self !! "update_for_can_edit" =
    Some (raises "update_for_can_edit" (AttributeError "profile")) ∧
  invoke_permission cls self "update" [] st0 =
    (Return "B",
     mkState ["update_for_can_edit"; "update"]
             [EvHasPerm "can_edit"; EvCall Self "update_for_can_edit";
              EvCall Super "update"]).
Proof. repeat split. Qed.

(** ** Which exceptions reach the caller *)

Section Propagation.
Context {Val Args World : Type}.
Implicit Types (self : Resource Val Args World) (st : State World).
Implicit Types (m : Method Val Args World) (args : Args).

Lemma call_outcome r name m args st :
  (call r name m args st).1 = (m args (world st)).1.
Proof. unfold call. by destruct (m args (world st)). Qed.

(** The fallback raises what the base implementation raises, or
    [AttributeError] when there is no base implementation. *)
Lemma super_call_Raise self fn args st e :
  (super_call self fn args st).1 = Raise e →
  base_raises self fn args e ∨
  (e = AttributeError fn ∧ super_attrs self !! fn = None).
Proof.
  destruct (super_attrs self !! fn) as [m |] eqn:Hm.
  - rewrite (super_call_found _ _ _ _ m Hm), call_outcome.
    intros H. left. by exists m, (world st).
  - rewrite super_call_missing by done. simpl.
    intros [= <-]. by right.
Qed.

Lemma try_call_Raise name m args (handler : M World Val) st e :
  (try_except (call Self name m args) caught handler st).1 = Raise e →
  ((m args (world st)).1 = Raise e ∧ caught e = false) ∨
  ∃ st', (handler st').1 = Raise e.
Proof.
  unfold try_except. rewrite <- (call_outcome Self name).
  destruct (call Self name m args st) as [[v | e'] st']; simpl; [done |].
  destruct (caught e') eqn:He'; simpl.
  - intros H. right. by exists st'.
  - intros [= <-]. by left.
Qed.

Lemma _call_role_fn_Raise self fn args st e :
  (_call_role_fn self fn args st).1 = Raise e →
  specialised_raises self args e ∨
  ∃ st', (super_call self fn args st').1 = Raise e.
Proof.
  destruct (_get_role_cases (_role_groups self) (request_user self))
    as [(r & Hr & _) | (msg & Hmsg & _)].
  - destruct (attrs self !! format_for fn r) as [m |] eqn:Hm.
    + rewrite (_call_role_fn_found _ _ _ _ r m Hr Hm).
      intros [[H1 H2] | H]%try_call_Raise; [left | by right].
      by exists (format_for fn r), m, (world st).
    + rewrite (_call_role_fn_missing _ _ _ _ r Hr Hm).
      intros H. right. by exists st.
  - rewrite (_call_role_fn_unresolved _ _ _ _ msg Hmsg).
    intros H. right. by exists st.
Qed.

Lemma _call_permission_fn_Raise self fn p args st e :
  (_call_permission_fn self fn p args st).1 = Raise e →
  specialised_raises self args e ∨
  ∃ st', (super_call self fn args st').1 = Raise e.
Proof.
  destruct (has_perm (request_user self) p) eqn:Hheld.
  - destruct (attrs self !! format_for fn p) as [m |] eqn:Hm.
    + rewrite (_call_permission_fn_found _ _ _ _ _ m Hheld Hm).
      intros [[H1 H2] | H]%try_call_Raise; [left | by right].
      by exists (format_for fn p), m, (world (checked p st)).
    + rewrite (_call_permission_fn_missing _ _ _ _ _ Hm).
      intros H. right. by exists (checked p st).
  - rewrite (_call_permission_fn_denied _ _ _ _ _ Hheld).
    intros H. right. by exists (checked p st).
Qed.

(** C6: a failed role resolution and a missing permission both end in
    the call of the base implementation, and a [RoleError] reaches the
    caller of either dispatcher only when the base implementation
    itself raised it. *)
Theorem RoleError_is_handled_by_fallback self fn p args st :
  (∀ msg, _get_role (_role_groups self) (request_user self) =
            Raise (RoleError msg) →
          _call_role_fn self fn args st = super_call self fn args st) ∧
  (has_perm (request_user self) p = false →
   _call_permission_fn self fn p args st =
     super_call self fn args (checked p st)) ∧
  (∀ msg, (_call_role_fn self fn args st).1 = Raise (RoleError msg) ∨
          (_call_permission_fn self fn p args st).1 =
            Raise (RoleError msg) →
          base_raises self fn args (RoleError msg)).
Proof.
  split; [| split].
  - intros msg Hmsg. by apply (_call_role_fn_unresolved _ _ _ _ msg).
  - apply _call_permission_fn_denied.
  - intros msg H.
    assert (Hcases : specialised_raises self args (RoleError msg) ∨
              ∃ st', (super_call self fn args st').1 =
                       Raise (RoleError msg)).
    { destruct H as [H | H];
        [by apply _call_role_fn_Raise in H
        | by apply _call_permission_fn_Raise in H]. }
    destruct Hcases as [(name & m & w & _ & _ & Hc) | [st' Hst']].
    + discriminate Hc.
    + apply super_call_Raise in Hst' as [Hbase | [Heq _]];
        [done | discriminate Heq].
Qed.

(** C10: without a base implementation of [fn], the fallback path ends
    in [AttributeError] for [fn], in both dispatchers; and an exception
    that reaches the caller was raised by a method that was called,
    or is that [AttributeError]. *)
Theorem missing_base_raises_AttributeError self fn p args st :
  (super_attrs self !! fn = None →
   ((∃ msg, _get_role (_role_groups self) (request_user self) =
              Raise (RoleError msg)) ∨
    (∃ r, _get_role (_role_groups self) (request_user self) = Return r ∧
          attrs self !! format_for fn r = None) →
    _call_role_fn self fn args st = (Raise (AttributeError fn), st)) ∧
   (has_perm (request_user self) p = false ∨
    attrs self !! format_for fn p = None →
    _call_permission_fn self fn p args st =
      (Raise (AttributeError fn), checked p st))) ∧
  (∀ e, (_call_role_fn self fn args st).1 = Raise e ∨
        (_call_permission_fn self fn p args st).1 = Raise e →
        specialised_raises self args e ∨ base_raises self fn args e ∨
        (e = AttributeError fn ∧ super_attrs self !! fn = None)).
Proof.
  split.
  - intros Hbase. split.
    + intros [[msg Hmsg] | (r & Hr & Hm)].
      * rewrite (_call_role_fn_unresolved _ _ _ _ msg Hmsg).
        by apply super_call_missing.
      * rewrite (_call_role_fn_missing _ _ _ _ r Hr Hm).
        by apply super_call_missing.
    + intros [Hheld | Hm].
      * rewrite (_call_permission_fn_denied _ _ _ _ _ Hheld).
        by apply super_call_missing.
      * rewrite (_call_permission_fn_missing _ _ _ _ _ Hm).
        by apply super_call_missing.
  - intros e H.
    assert (Hcases : specialised_raises self args e ∨
              ∃ st', (super_call self fn args st').1 = Raise e).
    { destruct H as [H | H];
        [by apply _call_role_fn_Raise in H
        | by apply _call_permission_fn_Raise in H]. }
    destruct Hcases as [Hs | [st' Hst']]; [by left | right].
    by apply super_call_Raise in Hst'.
Qed.

(** C8, as the code has it: the role that names the method is a
    configured name and the lowercased name of one of the caller's
    groups, not the stored spelling; the role dispatcher looks up the
    method named [<fn>_for_<role>] with that role and calls it, and
    calls the base implementation when there is none; the permission
    dispatcher asks [has_perm] about the permission it was given and,
    when it is held, looks up and calls [<fn>_for_<permission>] with
    that same unchanged name; in both the result depends on the
    resource's methods only through that one name, and different names
    give different methods; the default permission catalog holds the
    lowercased codenames. *)
Theorem specialised_method_name_is_exact self self' fn p args st :
  same_but_attrs self self' →
  (∀ r, _get_role (_role_groups self) (request_user self) = Return r →
        (r ∈ _role_groups self ∧
         ∃ g, g ∈ groups (request_user self) ∧ r = lower g) ∧
        (∀ m, attrs self !! format_for fn r = Some m →
              _call_role_fn self fn args st =
                try_except (call Self (format_for fn r) m args) caught
                           (super_call self fn args) st) ∧
        (attrs self !! format_for fn r = None →
         _call_role_fn self fn args st = super_call self fn args st) ∧
        (attrs self !! format_for fn r = attrs self' !! format_for fn r →
         _call_role_fn self fn args st = _call_role_fn self' fn args st)) ∧
  (∀ m, has_perm (request_user self) p = true →
        attrs self !! format_for fn p = Some m →
        _call_permission_fn self fn p args st =
          try_except (call Self (format_for fn p) m args) caught
                     (super_call self fn args) (checked p st)) ∧
  (attrs self !! format_for fn p = None →
   _call_permission_fn self fn p args st =
     super_call self fn args (checked p st)) ∧
  (attrs self !! format_for fn p = attrs self' !! format_for fn p →
   _call_permission_fn self fn p args st =
     _call_permission_fn self' fn p args st) ∧
  checked_permissions (trace (_call_permission_fn self fn p args st).2) =
    checked_permissions (trace st) ++ [p] ∧
  (∀ a b, format_for fn a = format_for fn b → a = b) ∧
  (∀ codenames q, q ∈ DEFAULT_PERMISSIONS codenames →
                  ∃ c, c ∈ codenames ∧ q = lower c).
Proof.
  intros Hsame.
  split; [| split; [| split; [| split; [| split; [| split]]]]].
  - intros r Hr. split; [| split; [| split]].
    + pose proof Hr as Hset. apply _get_role_Return in Hset.
      assert (Hin : r ∈ user_role_set (_role_groups self)
                          (request_user self))
        by (rewrite Hset; by apply elem_of_singleton).
      apply elem_of_user_role_set in Hin as [Hrg (g & Hg & Hl)].
      eauto.
    + intros m Hm. by apply _call_role_fn_found.
    + intros Hm. by apply (_call_role_fn_missing _ _ _ _ r).
    + intros Ha.
      destruct self as [u rg a s], self' as [u' rg' a' s'].
      unfold same_but_attrs in Hsame. simpl in *.
      destruct Hsame as (<- & <- & <-).
      unfold _call_role_fn, try_except, super_call, mbind, M_bind, bind,
        lift, getattr. simpl. rewrite Hr. simpl. by rewrite Ha.
  - intros m Hheld Hm. by apply _call_permission_fn_found.
  - apply _call_permission_fn_missing.
  - intros Ha.
    destruct self as [u rg a s], self' as [u' rg' a' s'].
    unfold same_but_attrs in Hsame. simpl in *.
    destruct Hsame as (<- & <- & <-).
    unfold _call_permission_fn, try_except, super_call, mbind, M_bind,
      bind, user_has_perm, getattr. simpl.
    destruct (has_perm u p); simpl; [by rewrite Ha | done].
  - apply _call_permission_fn_checks.
  - intros x y H. unfold format_for in H.
    by apply (inj (String.app fn)), (inj (String.app "_for_")) in H.
  - intros codenames q Hq. unfold DEFAULT_PERMISSIONS in Hq.
    apply list_elem_of_fmap in Hq as (c & -> & Hc). eauto.
Qed.

End Propagation.

Lemma RoleError_is_handled_by_fallback_witness :
  _get_role (_role_groups base_raising_RoleError)
      (request_user base_raising_RoleError) =
    Raise (RoleError "The user is not a member of any role groups") ∧
  has_perm (request_user base_raising_RoleError) "can_edit" = false ∧
  (_call_role_fn base_raising_RoleError "list" [] st0).1 =
    Raise (RoleError "raised by the base") ∧
  _call_role_fn base_raising_RoleError "list" [] st0 =
    super_call base_raising_RoleError "list" [] st0 ∧
  _call_permission_fn base_raising_RoleError "list" "can_edit" [] st0 =
    super_call base_raising_RoleError "list" [] (checked "can_edit" st0) ∧
  base_raises base_raising_RoleError "list" []
    (RoleError "raised by the base").
Proof.
  set (self := base_raising_RoleError).
  destruct (RoleError_is_handled_by_fallback self "list" "can_edit" [] st0)
    as (Hrole & Hperm & Hsurf).
  assert (Hres : _get_role (_role_groups self) (request_user self) =
            Raise (RoleError "The user is not a member of any role groups"))
    by reflexivity.
  assert (Hheld : has_perm (request_user self) "can_edit" = false)
    by reflexivity.
  assert (Hout : (_call_role_fn self "list" [] st0).1 =
            Raise (RoleError "raised by the base")) by reflexivity.
  split; [exact Hres |]. split; [exact Hheld |]. split; [exact Hout |].
  split; [exact (Hrole _ Hres) |]. split; [exact (Hperm Hheld) |].
  exact (Hsurf _ (or_introl Hout)).
Defined.

Lemma missing_base_raises_AttributeError_witness :
  super_attrs no_base !! "list" = None ∧
  _get_role (_role_groups no_base) (request_user no_base) =
    Raise (RoleError "The user is not a member of any role groups") ∧
  has_perm (request_user no_base) "can_edit" = false ∧
  _call_role_fn no_base "list" [] st0 = (Raise (AttributeError "list"), st0) ∧
  _call_permission_fn no_base "list" "can_edit" [] st0 =
    (Raise (AttributeError "list"), checked "can_edit" st0) ∧
  (specialised_raises no_base [] (AttributeError "list") ∨
   base_raises no_base "list" [] (AttributeError "list") ∨
   (AttributeError "list" = AttributeError "list" ∧
    super_attrs no_base !! "list" = None)).
Proof.
  destruct (missing_base_raises_AttributeError no_base "list" "can_edit"
              [] st0) as [Hmissing Honly].
  assert (Hbase : super_attrs no_base !! "list" = None) by reflexivity.
  assert (Hres : _get_role (_role_groups no_base) (request_user no_base) =
            Raise (RoleError "The user is not a member of any role groups"))
    by reflexivity.
  assert (Hheld : has_perm (request_user no_base) "can_edit" = false)
    by reflexivity.
  destruct (Hmissing Hbase) as [Hrole Hperm].
  split; [exact Hbase |]. split; [exact Hres |]. split; [exact Hheld |].
  split; [exact (Hrole (or_introl (ex_intro _ _ Hres))) |].
  split; [exact (Hperm (or_introl Hheld)) |].
  apply Honly. left.
  rewrite (Hrole (or_introl (ex_intro _ _ Hres))). reflexivity.
Defined.

(** For a group stored as [Admin], a method spelled [list_for_Admin] is
    not the one the dispatcher calls. *)
Lemma stored_role_name_is_not_matched :
  ¬ dispatches_on_stored_name stored_spelling "list" [] st0.
Proof.
  intros H.
  specialize (H "Admin" (returns "list_for_Admin" "A")).
  assert (Hcalls : _call_role_fn stored_spelling "list" [] st0 =
            try_except
              (call Self (format_for "list" "Admin")
                 (returns "list_for_Admin" "A") [])
              caught (super_call stored_spelling "list" []) st0).
  { apply H.
    - apply list_elem_of_singleton. reflexivity.
    - apply exactly_one_role_group_set. reflexivity.
    - reflexivity. }
  vm_compute in Hcalls. discriminate Hcalls.
Qed.

Lemma specialised_method_name_is_exact_witness :
  same_but_attrs naming_resource naming_resource_more ∧
  _get_role (_role_groups naming_resource) (request_user naming_resource) =
    Return "admin" ∧
  attrs naming_resource !! format_for "list" "admin" =
    Some (returns "list_for_admin" "A") ∧
  has_perm (request_user naming_resource) "Can_Edit" = true ∧
  attrs naming_resource !! format_for "list" "Can_Edit" =
    Some (returns "list_for_Can_Edit" "P") ∧
  _call_role_fn naming_resource "list" [] st0 =
    (Return "A",
     mkState ["list_for_admin"] [EvCall Self "list_for_admin"]) ∧
  _call_role_fn naming_resource "list" [] st0 =
    _call_role_fn naming_resource_more "list" [] st0 ∧
  _call_permission_fn naming_resource "list" "Can_Edit" [] st0 =
    (Return "P",
     mkState ["list_for_Can_Edit"]
             [EvHasPerm "Can_Edit"; EvCall Self "list_for_Can_Edit"]) ∧
  _call_permission_fn naming_resource "list" "Can_Edit" [] st0 =
    _call_permission_fn naming_resource_more "list" "Can_Edit" [] st0.
Proof.
  assert (Hsame : same_but_attrs naming_resource naming_resource_more)
    by (by repeat split).
  assert (Hres : _get_role (_role_groups naming_resource)
                   (request_user naming_resource) = Return "admin")
    by reflexivity.
  assert (Hrole : attrs naming_resource !! format_for "list" "admin" =
            Some (returns "list_for_admin" "A")) by reflexivity.
  assert (Hheld : has_perm (request_user naming_resource) "Can_Edit" = true)
    by reflexivity.
  assert (Hperm : attrs naming_resource !! format_for "list" "Can_Edit" =
            Some (returns "list_for_Can_Edit" "P")) by reflexivity.
  destruct (specialised_method_name_is_exact naming_resource
              naming_resource_more "list" "Can_Edit" [] st0 Hsame)
    as (Hr & Hpcall & _ & Hpsame & _).
  destruct (Hr "admin" Hres) as (_ & Hrcall & _ & Hrsame).
  split; [exact Hsame |]. split; [exact Hres |]. split; [exact Hrole |].
  split; [exact Hheld |]. split; [exact Hperm |].
  split; [| split; [| split]].
  - rewrite (Hrcall _ Hrole). reflexivity.
  - apply Hrsame. reflexivity.
  - rewrite (Hpcall _ Hheld Hperm). reflexivity.
  - apply Hpsame. reflexivity.
Defined.

(** C7: an [AttributeError] or a [RoleError] raised inside the
    specialised method does not reach the caller: the [except] clause
    meant for the lookup catches it and the base implementation runs, in
    both dispatchers.  An exception of another class does propagate. *)
Theorem handler_AttributeError_is_turned_into_fallback :
  let role_self := scenario_failing_handler (AttributeError "profile") in
  let perm_self :=
    permission_scenario ["can_edit"]
      {[ "update_for_can_edit" :=
           raises "update_for_can_edit" (RoleError "not yours") ]} in
  _call_role_fn role_self "list" [] st0 =
    (Return "B",
     mkState ["list_for_admin"; "list"]
             [EvCall Self "list_for_admin"; EvCall Super "list"]) ∧
  _call_permission_fn perm_self "update" "can_edit" [] st0 =
    (Return "B",
     mkState ["update_for_can_edit"; "update"]
             [EvHasPerm "can_edit"; EvCall Self "update_for_can_edit";
              EvCall Super "update"]) ∧
  _call_role_fn (scenario_failing_handler (OtherError "ValueError" "bad"))
      "list" [] st0 =
    (Raise (OtherError "ValueError" "bad"),
     mkState ["list_for_admin"] [EvCall Self "list_for_admin"]).
Proof. repeat split. Qed.

(** * Further properties of the module *)

(** ** Registration of the role wrappers *)

(** X1: the loop that ends the module binds every name of the registry
    to the wrapper closed over that same name, leaves every other name
    of the class as it was, and registering again changes nothing. *)
Theorem register_registry_binds_registry (registry : gset string)
    (cls : gmap string role_inner) :
  (∀ k, register_registry registry cls !! k =
        if decide (k ∈ registry) then Some (RoleInner k) else cls !! k) ∧
  dom (register_registry registry cls) = registry ∪ dom cls ∧
  register_registry registry (register_registry registry cls) =
    register_registry registry cls.
Proof.
  split; [apply register_registry_lookup |]. split.
  - apply set_eq. intros k.
    rewrite elem_of_union, !elem_of_dom, register_registry_lookup.
    destruct (decide (k ∈ registry)) as [Hk | Hk].
    + split; [by left | by eauto].
    + split; [by right | by intros [? | ?]].
  - apply map_eq. intros k. rewrite !register_registry_lookup.
    by destruct (decide (k ∈ registry)).
Qed.

Section FurtherRoleDispatch.
Context {Val Args World : Type}.
Implicit Types (self : Resource Val Args World) (st : State World).
Implicit Types (m : Method Val Args World) (args : Args).

(** X2: an operation that is not in the registry is never specialised:
    on a class that got its wrappers from the registry alone, calling it
    is calling the base implementation, whatever the caller's role and
    whatever [<fn>_for_<role>] methods the resource has. *)
Theorem unregistered_operation_is_not_dispatched (registry : gset string)
    self fn args st :
  fn ∉ registry →
  invoke_role (register_registry registry ∅) self fn args st =
    super_call self fn args st.
Proof.
  intros Hfn. unfold invoke_role.
  by rewrite register_registry_lookup, decide_False, lookup_empty.
Qed.

(** X3: for a caller in exactly one role group, a registered operation
    whose [<fn>_for_<role>] method returns, or raises an exception other
    than [AttributeError] and [RoleError], ends with that method's
    outcome and world; the method is the only one called. *)
Theorem registered_operation_runs_role_method (registry : gset string)
    cls self fn args st r m res w :
  fn ∈ registry →
  exactly_one_role_group (_role_groups self) (request_user self) r →
  attrs self !! format_for fn r = Some m →
  m args (world st) = (res, w) →
  (∀ e, res = Raise e → caught e = false) →
  invoke_role (register_registry registry cls) self fn args st =
    (res, mkState w (trace st ++ [EvCall Self (format_for fn r)])).
Proof.
  intros Hfn Hone Hm Hrun Hres.
  rewrite invoke_role_registered by done.
  by apply (_call_role_fn_specialised _ _ _ _ r m).
Qed.

(** X4: for a caller in exactly one role group, a registered operation
    without a [<fn>_for_<role>] method is the call of the base
    implementation, on the state the call started in. *)
Theorem registered_operation_without_role_method_runs_base
    (registry : gset string) cls self fn args st r :
  fn ∈ registry →
  exactly_one_role_group (_role_groups self) (request_user self) r →
  attrs self !! format_for fn r = None →
  invoke_role (register_registry registry cls) self fn args st =
    super_call self fn args st.
Proof.
  intros Hfn Hone Hm. rewrite invoke_role_registered by done.
  by apply (_call_role_fn_unspecialised _ _ _ _ r).
Qed.

End FurtherRoleDispatch.

Lemma unregistered_operation_is_not_dispatched_witness :
  ("retrieve" ∉ ({[ "list" ]} : gset string)) ∧
  invoke_role (register_registry {[ "list" ]} ∅) retrieve_scenario
      "retrieve" [] st0 =
    (Return "B", mkState ["retrieve"] [EvCall Super "retrieve"]).
Proof.
  assert (Hfn : "retrieve" ∉ ({[ "list" ]} : gset string)).
  { intros Hin. apply elem_of_singleton in Hin. discriminate Hin. }
  split; [exact Hfn |].
  rewrite (unregistered_operation_is_not_dispatched {[ "list" ]}
             retrieve_scenario "retrieve" [] st0 Hfn).
  reflexivity.
Defined.

Lemma registered_operation_runs_role_method_witness :
  "list" ∈ ({[ "list" ]} : gset string) ∧
  exactly_one_role_group {[ "admin"; "viewer" ]} (caller ["Admin"] [])
    "admin" ∧
  invoke_role (register_registry {[ "list" ]} ∅) (scenario ["Admin"])
      "list" [] st0 =
    (Return "A",
     mkState ["list_for_admin"] [EvCall Self "list_for_admin"]).
Proof.
  assert (Hfn : "list" ∈ ({[ "list" ]} : gset string))
    by (by apply elem_of_singleton).
  assert (Hone : exactly_one_role_group {[ "admin"; "viewer" ]}
                   (caller ["Admin"] []) "admin")
    by (apply exactly_one_role_group_set; reflexivity).
  split; [exact Hfn |]. split; [exact Hone |].
  apply (registered_operation_runs_role_method {[ "list" ]} ∅
           (scenario ["Admin"]) "list" [] st0 "admin"
           (returns "list_for_admin" "A") (Return "A") ["list_for_admin"]
           Hfn Hone eq_refl eq_refl).
  intros e He. discriminate He.
Defined.

Lemma registered_operation_without_role_method_runs_base_witness :
  "list" ∈ ({[ "list" ]} : gset string) ∧
  exactly_one_role_group {[ "admin"; "viewer" ]} (caller ["admin"] [])
    "admin" ∧
  attrs scenario_bare !! format_for "list" "admin" = None ∧
  invoke_role (register_registry {[ "list" ]} ∅) scenario_bare
      "list" [] st0 =
    (Return "B", mkState ["list"] [EvCall Super "list"]).
Proof.
  assert (Hfn : "list" ∈ ({[ "list" ]} : gset string))
    by (by apply elem_of_singleton).
  assert (Hone : exactly_one_role_group {[ "admin"; "viewer" ]}
                   (caller ["admin"] []) "admin")
    by (apply exactly_one_role_group_set; reflexivity).
  split; [exact Hfn |]. split; [exact Hone |]. split; [reflexivity |].
  rewrite (registered_operation_without_role_method_runs_base
             {[ "list" ]} ∅ scenario_bare "list" [] st0 "admin"
             Hfn Hone eq_refl).
  reflexivity.
Defined.

(** ** Permission dispatch through the registered wrapper *)

Section FurtherPermissionDispatch.
Context {Val Args World : Type}.
Implicit Types (self : Resource Val Args World) (st : State World).
Implicit Types (m : Method Val Args World) (args : Args).

Lemma invoke_permission_registered perms (registry : gset string) cls
    self fn p args st :
  fn ∈ registry → last perms = Some p →
  invoke_permission (__init__ perms registry cls) self fn args st =
    _call_permission_fn self fn p args st.
Proof.
  intros Hfn Hlast. unfold invoke_permission.
  by rewrite __init___lookup, decide_True, Hlast.
Qed.

(** X5: after [__init__], for a caller who holds the last permission of
    the catalog, a registered operation whose [<fn>_for_<permission>]
    override returns, or raises an exception other than [AttributeError]
    and [RoleError], ends with the override's outcome and world, after
    one [has_perm] check and no call of the base implementation. *)
Theorem registered_operation_runs_permission_method perms
    (registry : gset string) cls self fn p args st m res w :
  fn ∈ registry → last perms = Some p →
  has_perm (request_user self) p = true →
  attrs self !! format_for fn p = Some m →
  m args (world st) = (res, w) →
  (∀ e, res = Raise e → caught e = false) →
  invoke_permission (__init__ perms registry cls) self fn args st =
    (res, mkState w (trace st ++
                       [EvHasPerm p; EvCall Self (format_for fn p)])).
Proof.
  intros Hfn Hlast Hheld Hm Hrun Hres.
  rewrite (invoke_permission_registered _ _ _ _ _ p) by done.
  by apply (_call_permission_fn_specialised _ _ _ _ _ m).
Qed.

(** X6: after [__init__], when the caller lacks the last permission of
    the catalog, or the resource has no [<fn>_for_<permission>], a
    registered operation is the call of the base implementation; the
    only thing that happened before it is the [has_perm] check. *)
Theorem registered_operation_without_permission_runs_base perms
    (registry : gset string) cls self fn p args st :
  fn ∈ registry → last perms = Some p →
  (has_perm (request_user self) p = false ∨
   attrs self !! format_for fn p = None) →
  invoke_permission (__init__ perms registry cls) self fn args st =
    super_call self fn args (checked p st).
Proof.
  intros Hfn Hlast Hcase.
  rewrite (invoke_permission_registered _ _ _ _ _ p) by done.
  destruct Hcase as [Hheld | Hm].
  - by apply _call_permission_fn_denied.
  - by apply _call_permission_fn_missing.
Qed.

(** X7: a specialised method that raises [AttributeError] or [RoleError]
    is followed by the base implementation, in both dispatchers, and the
    base implementation starts in the world the failed method left. *)
Theorem caught_handler_exception_runs_base self fn p args st r m e w :
  caught e = true →
  m args (world st) = (Raise e, w) →
  (_get_role (_role_groups self) (request_user self) = Return r →
   attrs self !! format_for fn r = Some m →
   _call_role_fn self fn args st =
     super_call self fn args
       (mkState w (trace st ++ [EvCall Self (format_for fn r)]))) ∧
  (has_perm (request_user self) p = true →
   attrs self !! format_for fn p = Some m →
   _call_permission_fn self fn p args st =
     super_call self fn args
       (mkState w (trace st ++
                     [EvHasPerm p; EvCall Self (format_for fn p)]))).
Proof.
  intros He Hrun. split.
  - intros Hr Hm. rewrite (_call_role_fn_found _ _ _ _ r m Hr Hm).
    by apply (try_call_caught _ _ _ _ _ _ e).
  - intros Hheld Hm.
    rewrite (_call_permission_fn_found _ _ _ _ _ m Hheld Hm).
    rewrite (try_call_caught _ _ _ _ _ _ e w); [| done | done].
    simpl. by rewrite <- app_assoc.
Qed.

(** X8: an exception raised by the base implementation on the fallback
    path reaches the caller whatever its class, [AttributeError] and
    [RoleError] included: the [except] handler is not itself guarded. *)
Theorem base_exception_reaches_caller self fn p args st m e :
  super_attrs self !! fn = Some m →
  (m args (world st)).1 = Raise e →
  ((∃ msg, _get_role (_role_groups self) (request_user self) =
             Raise (RoleError msg)) →
   (_call_role_fn self fn args st).1 = Raise e) ∧
  (has_perm (request_user self) p = false →
   (_call_permission_fn self fn p args st).1 = Raise e).
Proof.
  intros Hbase Hraise. split.
  - intros [msg Hmsg].
    rewrite (_call_role_fn_unresolved _ _ _ _ msg Hmsg).
    by rewrite (super_call_found _ _ _ _ m Hbase), call_outcome.
  - intros Hheld. rewrite (_call_permission_fn_denied _ _ _ _ _ Hheld).
    by rewrite (super_call_found _ _ _ _ m Hbase), call_outcome.
Qed.

End FurtherPermissionDispatch.

Lemma registered_operation_runs_permission_method_witness :
  "update" ∈ ({[ "update" ]} : gset string) ∧
  last ["can_view"; "can_edit"] = Some "can_edit" ∧
  invoke_permission (__init__ ["can_view"; "can_edit"] {[ "update" ]} ∅)
      (permission_scenario ["can_edit"]
         {[ "update_for_can_edit" := returns "update_for_can_edit" "A" ]})
      "update" [] st0 =
    (Return "A",
     mkState ["update_for_can_edit"]
             [EvHasPerm "can_edit"; EvCall Self "update_for_can_edit"]).
Proof.
  assert (Hfn : "update" ∈ ({[ "update" ]} : gset string))
    by (by apply elem_of_singleton).
  split; [exact Hfn |]. split; [reflexivity |].
  apply (registered_operation_runs_permission_method
           ["can_view"; "can_edit"] {[ "update" ]} ∅
           (permission_scenario ["can_edit"]
              {[ "update_for_can_edit" :=
                   returns "update_for_can_edit" "A" ]})
           "update" "can_edit" [] st0
           (returns "update_for_can_edit" "A") (Return "A")
           ["update_for_can_edit"] Hfn).
  - reflexivity.
  - reflexivity.
  - reflexivity.
  - reflexivity.
  - intros e He. discriminate He.
Defined.

Lemma registered_operation_without_permission_runs_base_witness :
  "update" ∈ ({[ "update" ]} : gset string) ∧
  last ["can_view"; "can_edit"] = Some "can_edit" ∧
  has_perm (caller [] ["can_view"]) "can_edit" = false ∧
  invoke_permission (__init__ ["can_view"; "can_edit"] {[ "update" ]} ∅)
      (permission_scenario ["can_view"]
         {[ "update_for_can_view" := returns "update_for_can_view" "V";
            "update_for_can_edit" := returns "update_for_can_edit" "A" ]})
      "update" [] st0 =
    (Return "B",
     mkState ["update"] [EvHasPerm "can_edit"; EvCall Super "update"]).
Proof.
  assert (Hfn : "update" ∈ ({[ "update" ]} : gset string))
    by (by apply elem_of_singleton).
  split; [exact Hfn |]. split; [reflexivity |]. split; [reflexivity |].
  rewrite (registered_operation_without_permission_runs_base
             ["can_view"; "can_edit"] {[ "update" ]} ∅
             (permission_scenario ["can_view"]
                {[ "update_for_can_view" :=
                     returns "update_for_can_view" "V";
                   "update_for_can_edit" :=
                     returns "update_for_can_edit" "A" ]})
             "update" "can_edit" [] st0 Hfn eq_refl (or_introl eq_refl)).
  reflexivity.
Defined.

Lemma caught_handler_exception_runs_base_witness :
  caught (AttributeError "profile") = true ∧
  _get_role {[ "admin"; "viewer" ]} (caller ["admin"] []) = Return "admin" ∧
  _call_role_fn (scenario_failing_handler (AttributeError "profile"))
      "list" [] st0 =
    super_call (scenario_failing_handler (AttributeError "profile"))
      "list" []
      (mkState ["list_for_admin"] [EvCall Self "list_for_admin"]).
Proof.
  split; [reflexivity |]. split; [reflexivity |].
  apply (proj1 (caught_handler_exception_runs_base
                  (scenario_failing_handler (AttributeError "profile"))
                  "list" "can_edit" [] st0 "admin"
                  (raises "list_for_admin" (AttributeError "profile"))
                  (AttributeError "profile") ["list_for_admin"]
                  eq_refl eq_refl)); reflexivity.
Defined.

Lemma base_exception_reaches_caller_witness :
  super_attrs base_raising_RoleError !! "list" =
    Some (raises "list" (RoleError "raised by the base")) ∧
  has_perm (request_user base_raising_RoleError) "can_edit" = false ∧
  (_call_role_fn base_raising_RoleError "list" [] st0).1 =
    Raise (RoleError "raised by the base") ∧
  (_call_permission_fn base_raising_RoleError "list" "can_edit" [] st0).1 =
    Raise (RoleError "raised by the base").
Proof.
  destruct (base_exception_reaches_caller base_raising_RoleError "list"
              "can_edit" [] st0
              (raises "list" (RoleError "raised by the base"))
              (RoleError "raised by the base") eq_refl eq_refl)
    as [Hrole Hperm].
  split; [reflexivity |]. split; [reflexivity |]. split.
  - apply Hrole.
    exists "The user is not a member of any role groups". reflexivity.
  - apply Hperm. reflexivity.
Defined.

(** ** Role resolution *)

(** X9: whatever is configured, a resolved role is a lowercase name; a
    configured role name with an uppercase ASCII letter is therefore
    never the role of any caller. *)
Theorem uppercase_role_name_is_never_resolved rg user r :
  lower r ≠ r → _get_role rg user ≠ Return r.
Proof.
  intros Hup Hr. apply _get_role_Return in Hr.
  assert (Hin : r ∈ user_role_set rg user)
    by (rewrite Hr; by apply elem_of_singleton).
  apply elem_of_user_role_set in Hin as [_ (g & _ & Hg)].
  apply Hup. rewrite <- Hg. apply lower_idemp.
Qed.

Lemma uppercase_role_name_is_never_resolved_witness :
  lower "Admin" ≠ "Admin" ∧
  _get_role {[ "Admin"; "viewer" ]} (caller ["Admin"; "ADMIN"] []) ≠
    Return "Admin".
Proof.
  assert (Hup : lower "Admin" ≠ "Admin") by (intros H; discriminate H).
  split; [exact Hup |].
  exact (uppercase_role_name_is_never_resolved {[ "Admin"; "viewer" ]}
           (caller ["Admin"; "ADMIN"] []) "Admin" Hup).
Defined.

(** X10: when [ROLE_GROUPS] is not configured, the role groups are the
    lowercased group names of the identity store, and role resolution
    is the case-insensitive one: one match is the role, none or several
    raise [RoleError]. *)
Theorem default_role_groups_resolve_case_insensitively names user :
  resolves_case_insensitively (make_role_groups None names) user.
Proof.
  apply lowercase_config_resolves_case_insensitively.
  intros r. apply default_role_groups_lowercase.
Qed.

(** X11: when every configured role name is lowercase, the set that
    [_get_role] intersects is the set of configured names that equal one
    of the caller's group names up to case. *)
Theorem lowercase_role_groups_match_up_to_case rg user r :
  (∀ r', r' ∈ rg → lower r' = r') →
  r ∈ user_role_set rg user ↔
  r ∈ rg ∧ ∃ g, g ∈ groups user ∧ lower g = lower r.
Proof.
  intros Hlow. rewrite elem_of_user_role_set. unfold in_role_group.
  split; intros (Hr & g & Hg & Heq); (split; [done |]); exists g;
    (split; [done |]).
  - by rewrite (Hlow r Hr).
  - by rewrite Heq, (Hlow r Hr).
Qed.

Lemma lowercase_role_groups_match_up_to_case_witness :
  (∀ r', r' ∈ ({[ "admin"; "viewer" ]} : gset string) → lower r' = r') ∧
  "admin" ∈ user_role_set {[ "admin"; "viewer" ]} (caller ["ADMIN"] []).
Proof.
  assert (Hlow : ∀ r', r' ∈ ({[ "admin"; "viewer" ]} : gset string) →
                       lower r' = r').
  { intros r' [Hr | Hr]%elem_of_union;
      apply elem_of_singleton in Hr; subst r'; reflexivity. }
  split; [exact Hlow |].
  apply (lowercase_role_groups_match_up_to_case {[ "admin"; "viewer" ]}
           (caller ["ADMIN"] []) "admin" Hlow).
  split; [set_solver |]. exists "ADMIN".
  split; [by apply list_elem_of_singleton | reflexivity].
Defined.

(** X12: the three outcomes of [_get_role] and when each occurs: no role
    group gives the [RoleError] "not a member of any role groups",
    several give the [RoleError] "member of multiple role groups", one
    gives that role; the three cases cover every caller, so the [pop]
    never meets an empty set. *)
Theorem _get_role_outcomes rg user :
  (no_role_group rg user →
   _get_role rg user =
     Raise (RoleError "The user is not a member of any role groups")) ∧
  (several_role_groups rg user →
   _get_role rg user =
     Raise (RoleError "The user is a member of multiple role groups")) ∧
  (∀ r, exactly_one_role_group rg user r → _get_role rg user = Return r) ∧
  (no_role_group rg user ∨ several_role_groups rg user ∨
   ∃ r, exactly_one_role_group rg user r).
Proof.
  split; [| split; [| split]].
  - intros H. apply no_role_group_size in H.
    unfold _get_role. by rewrite H.
  - intros H. apply several_role_groups_size in H.
    unfold _get_role.
    destruct (size (user_role_set rg user) <? 1) eqn:E1.
    + apply Nat.ltb_lt in E1. lia.
    + apply Nat.ltb_lt in H. by rewrite H.
  - intros r H. by apply _get_role_singleton, exactly_one_role_group_set.
  - destruct (decide (size (user_role_set rg user) = 0)) as [H0 | H0].
    { left. intros r Hr. apply elem_of_user_role_set in Hr.
      apply size_empty_iff in H0. set_solver. }
    destruct (decide (size (user_role_set rg user) = 1)) as [H1 | H1].
    { right. right. apply size_1_elem_of in H1 as [x Hx].
      apply leibniz_equiv in Hx. exists x.
      by apply exactly_one_role_group_set. }
    right. left.
    destruct (size_pos_elem_of (user_role_set rg user)) as [x Hx]; [lia |].
    destruct (size_pos_elem_of (user_role_set rg user ∖ {[ x ]}))
      as [y Hy].
    { rewrite size_difference by set_solver. rewrite size_singleton. lia. }
    apply elem_of_difference in Hy as [Hy Hne].
    exists x, y. split; [set_solver |].
    split; by apply elem_of_user_role_set.
Qed.

Lemma _get_role_outcomes_witness :
  no_role_group {[ "admin"; "viewer" ]} (caller ["staff"] []) ∧
  several_role_groups {[ "admin"; "viewer" ]}
    (caller ["Admin"; "Viewer"] []) ∧
  _get_role {[ "admin"; "viewer" ]} (caller ["staff"] []) =
    Raise (RoleError "The user is not a member of any role groups") ∧
  _get_role {[ "admin"; "viewer" ]} (caller ["Admin"; "Viewer"] []) =
    Raise (RoleError "The user is a member of multiple role groups").
Proof.
  assert (Hnone : no_role_group {[ "admin"; "viewer" ]}
                    (caller ["staff"] [])).
  { intros r [Hr (g & Hg & Hl)]. apply list_elem_of_singleton in Hg.
    subst g. simpl in Hl. subst r.
    apply elem_of_union in Hr as [Hr | Hr];
      apply elem_of_singleton in Hr; discriminate Hr. }
  assert (Hsev : several_role_groups {[ "admin"; "viewer" ]}
                   (caller ["Admin"; "Viewer"] [])).
  { exists "admin", "viewer". split; [done |].
    split; (split; [set_solver |]).
    - exists "Admin". split; [set_solver | done].
    - exists "Viewer". split; [set_solver | done]. }
  split; [exact Hnone |]. split; [exact Hsev |]. split.
  - exact (proj1 (_get_role_outcomes _ _) Hnone).
  - exact (proj1 (proj2 (_get_role_outcomes _ _)) Hsev).
Defined.

(** X13: groups whose names differ only in case count as one role: a
    caller all of whose groups lowercase to the same configured name has
    that name as role, however many such groups there are. *)
Theorem groups_equal_up_to_case_are_one_role rg user r :
  groups user ≠ [] →
  (∀ g, g ∈ groups user → lower g = r) →
  r ∈ rg →
  _get_role rg user = Return r.
Proof.
  intros Hne Hall Hr. apply _get_role_singleton, set_eq. intros x.
  rewrite elem_of_singleton, elem_of_user_role_set. unfold in_role_group.
  split.
  - intros [_ (g & Hg & <-)]. by apply Hall.
  - intros ->. split; [done |].
    destruct (groups user) as [| g gs] eqn:Hgs; [done |].
    exists g. split; [by left | apply Hall; by left].
Qed.

Lemma groups_equal_up_to_case_are_one_role_witness :
  groups (caller ["Admin"; "ADMIN"; "admin"] []) ≠ [] ∧
  "admin" ∈ ({[ "admin"; "viewer" ]} : gset string) ∧
  _get_role {[ "admin"; "viewer" ]}
    (caller ["Admin"; "ADMIN"; "admin"] []) = Return "admin".
Proof.
  assert (Hne : groups (caller ["Admin"; "ADMIN"; "admin"] []) ≠ [])
    by (intros H; discriminate H).
  assert (Hr : "admin" ∈ ({[ "admin"; "viewer" ]} : gset string))
    by set_solver.
  split; [exact Hne |]. split; [exact Hr |].
  apply (groups_equal_up_to_case_are_one_role {[ "admin"; "viewer" ]}
           (caller ["Admin"; "ADMIN"; "admin"] []) "admin" Hne); [| exact Hr].
  intros g Hg. simpl in Hg.
  repeat (apply elem_of_cons in Hg as [-> | Hg]; [reflexivity |]).
  by apply not_elem_of_nil in Hg.
Defined.

(** X14: a group whose lowercased name is not a configured role group
    does not count: with or without it the caller resolves to the same
    role or the same error; nor does resolution look at permissions. *)
Theorem other_groups_are_ignored rg g gs hp hp' :
  lower g ∉ rg →
  _get_role rg (mkUser (g :: gs) hp) = _get_role rg (mkUser gs hp').
Proof.
  intros Hg.
  assert (Hset : user_role_set rg (mkUser (g :: gs) hp) =
                 user_role_set rg (mkUser gs hp')).
  { apply set_eq. intros r. rewrite !elem_of_user_role_set.
    unfold in_role_group. simpl. split.
    - intros [Hr (g' & [-> | Hg']%elem_of_cons & Hl)].
      + by subst r.
      + eauto.
    - intros [Hr (g' & Hg' & Hl)]. split; [done |].
      exists g'. split; [by right | done]. }
  unfold _get_role. by rewrite Hset.
Qed.

Lemma other_groups_are_ignored_witness :
  (lower "Staff" ∉ ({[ "admin"; "viewer" ]} : gset string)) ∧
  _get_role {[ "admin"; "viewer" ]}
    (mkUser ["Staff"; "Admin"] (fun _ => true)) = Return "admin".
Proof.
  assert (Hg : lower "Staff" ∉ ({[ "admin"; "viewer" ]} : gset string)).
  { intros [Hr | Hr]%elem_of_union;
      apply elem_of_singleton in Hr; discriminate Hr. }
  split; [exact Hg |].
  rewrite (other_groups_are_ignored {[ "admin"; "viewer" ]} "Staff"
             ["Admin"] (fun _ => true) (fun _ => false) Hg).
  reflexivity.
Defined.

(** ** What one call of a dispatcher does, in order *)

Section CallOrder.
Context {Val Args World : Type}.
Implicit Types (self : Resource Val Args World) (st : State World).
Implicit Types (m : Method Val Args World) (args : Args).

Lemma call_trace r name m args st :
  trace (call r name m args st).2 = trace st ++ [EvCall r name].
Proof. unfold call. by destruct (m args (world st)). Qed.

Lemma super_call_trace self fn args st :
  trace (super_call self fn args st).2 = trace st ∨
  trace (super_call self fn args st).2 = trace st ++ [EvCall Super fn].
Proof.
  destruct (super_attrs self !! fn) as [m |] eqn:Hm.
  - right. rewrite (super_call_found _ _ _ _ m Hm). apply call_trace.
  - left. by rewrite super_call_missing.
Qed.

Lemma try_call_trace name m args self fn st :
  trace (try_except (call Self name m args) caught
           (super_call self fn args) st).2 = trace st ++ [EvCall Self name] ∨
  trace (try_except (call Self name m args) caught
           (super_call self fn args) st).2 =
    trace st ++ [EvCall Self name; EvCall Super fn].
Proof.
  unfold try_except.
  pose proof (call_trace Self name m args st) as Hc.
  destruct (call Self name m args st) as [[v | e] st']; simpl in *;
    [by left |].
  destruct (caught e); simpl; [| by left].
  destruct (super_call_trace self fn args st') as [H | H]; rewrite H, Hc.
  - by left.
  - right. by rewrite <- app_assoc.
Qed.

(** X15: one call of the role dispatcher calls at most one specialised
    method, the one named after the resolved role, and at most once the
    base implementation, after it; it calls nothing else and never asks
    [has_perm]. *)
Theorem role_dispatch_calls_in_order self fn args st :
  ∃ t, trace (_call_role_fn self fn args st).2 = trace st ++ t ∧
    checked_permissions t = [] ∧
    (t = [] ∨ t = [EvCall Super fn] ∨
     ∃ r, _get_role (_role_groups self) (request_user self) = Return r ∧
          (t = [EvCall Self (format_for fn r)] ∨
           t = [EvCall Self (format_for fn r); EvCall Super fn])).
Proof.
  destruct (_get_role_cases (_role_groups self) (request_user self))
    as [(r & Hr & _) | (msg & Hmsg & _)].
  - destruct (attrs self !! format_for fn r) as [m |] eqn:Hm.
    + rewrite (_call_role_fn_found _ _ _ _ r m Hr Hm).
      destruct (try_call_trace (format_for fn r) m args self fn st)
        as [H | H]; rewrite H; eexists; (split; [done |]);
        (split; [done |]); right; right; exists r; eauto.
    + rewrite (_call_role_fn_missing _ _ _ _ r Hr Hm).
      destruct (super_call_trace self fn args st) as [H | H]; rewrite H.
      * exists []. by rewrite app_nil_r; eauto.
      * eexists. eauto.
  - rewrite (_call_role_fn_unresolved _ _ _ _ msg Hmsg).
    destruct (super_call_trace self fn args st) as [H | H]; rewrite H.
    + exists []. by rewrite app_nil_r; eauto.
    + eexists. eauto.
Qed.

(** X16: one call of the permission dispatcher first asks [has_perm]
    about its permission, once; it calls the specialised method only
    when the caller holds the permission, at most once, and at most
    once the base implementation, after it. *)
Theorem permission_dispatch_calls_in_order self fn p args st :
  ∃ t, trace (_call_permission_fn self fn p args st).2 =
         trace st ++ EvHasPerm p :: t ∧
    checked_permissions t = [] ∧
    (t = [] ∨ t = [EvCall Super fn] ∨
     (has_perm (request_user self) p = true ∧
      (t = [EvCall Self (format_for fn p)] ∨
       t = [EvCall Self (format_for fn p); EvCall Super fn]))).
Proof.
  assert (Hsuper : ∃ t,
            trace (super_call self fn args (checked p st)).2 =
              trace st ++ EvHasPerm p :: t ∧
            checked_permissions t = [] ∧
            (t = [] ∨ t = [EvCall Super fn])).
  { destruct (super_call_trace self fn args (checked p st)) as [H | H];
      rewrite H; simpl.
    - exists []. eauto.
    - exists [EvCall Super fn]. rewrite <- app_assoc. eauto. }
  destruct (has_perm (request_user self) p) eqn:Hheld.
  - destruct (attrs self !! format_for fn p) as [m |] eqn:Hm.
    + rewrite (_call_permission_fn_found _ _ _ _ _ m Hheld Hm).
      destruct (try_call_trace (format_for fn p) m args self fn
                  (checked p st)) as [H | H];
        rewrite H; simpl; rewrite <- app_assoc; eexists;
        (split; [done |]); (split; [done |]); right; right; eauto.
    + rewrite (_call_permission_fn_missing _ _ _ _ _ Hm).
      destruct Hsuper as (t & Ht & Hc & Hshape).
      exists t. split; [done |]. split; [done |].
      destruct Hshape; eauto.
  - rewrite (_call_permission_fn_denied _ _ _ _ _ Hheld).
    destruct Hsuper as (t & Ht & Hc & Hshape).
    exists t. split; [done |]. split; [done |].
    destruct Hshape; eauto.
Qed.

End CallOrder.

(** ** Registration of the permission wrappers *)

(** X17: with an empty permission catalog, or an empty registry,
    [__init__] leaves the class as it is: nothing is wrapped. *)
Theorem init_with_nothing_to_register perms (registry : gset string)
    (cls : gmap string permission_inner) :
  perms = [] ∨ registry = ∅ →
  __init__ perms registry cls = cls.
Proof.
  intros Hcase. apply map_eq. intros k. rewrite __init___lookup.
  destruct Hcase as [-> | ->].
  - by destruct (decide (k ∈ registry)).
  - by rewrite decide_False by set_solver.
Qed.

Lemma init_with_nothing_to_register_witness :
  (["can_edit"] = [] ∨ (∅ : gset string) = ∅) ∧
  __init__ ["can_edit"] ∅ ∅ = ∅.
Proof.
  assert (Hcase : ["can_edit"] = [] ∨ (∅ : gset string) = ∅)
    by (by right).
  split; [exact Hcase |].
  exact (init_with_nothing_to_register ["can_edit"] ∅ ∅ Hcase).
Defined.

(** X18: only the last permission of the catalog has an effect: the
    class after [__init__] over a catalog is the class after [__init__]
    over its last permission alone. *)
Theorem init_keeps_last_permission_only perms p (registry : gset string)
    (cls : gmap string permission_inner) :
  __init__ (perms ++ [p]) registry cls = __init__ [p] registry cls.
Proof.
  apply map_eq. intros k. rewrite !__init___lookup.
  by rewrite last_snoc.
Qed.

(** X19: with a non-empty catalog the names bound on the class after
    [__init__] are those bound before and the registry, no more and no
    fewer: [__init__] removes nothing and adds only registry names. *)
Theorem init_domain perms (registry : gset string)
    (cls : gmap string permission_inner) :
  perms ≠ [] →
  dom (__init__ perms registry cls) = registry ∪ dom cls.
Proof.
  intros Hne. apply set_eq. intros k.
  rewrite elem_of_union, !elem_of_dom, __init___lookup.
  destruct (last perms) as [p |] eqn:Hlast;
    [| by apply last_None in Hlast].
  destruct (decide (k ∈ registry)) as [Hk | Hk].
  - split; [by left | by eauto].
  - split; [by right | by intros [? | ?]].
Qed.

Lemma init_domain_witness :
  ["can_view"; "can_edit"] ≠ [] ∧
  dom (__init__ ["can_view"; "can_edit"] {[ "update" ]} ∅) =
    ({[ "update" ]} : gset string).
Proof.
  assert (Hne : ["can_view"; "can_edit"] ≠ [])
    by (intros H; discriminate H).
  split; [exact Hne |].
  rewrite (init_domain ["can_view"; "can_edit"] {[ "update" ]} ∅ Hne).
  rewrite dom_empty_L. apply (right_id_L ∅ (∪)).
Defined.

(** ** Method names *)

Lemma string_app_assoc (a b c : string) :
  (a +:+ b) +:+ c = a +:+ (b +:+ c).
Proof.
  induction a as [| x a IH]; [done |].
  change (String x ((a +:+ b) +:+ c) = String x (a +:+ (b +:+ c))).
  by rewrite IH.
Qed.

(** X20: method names nest: the name built for operation
    [<fn>_for_<a>] and suffix [b] is the name built for operation [fn]
    and suffix [<a>_for_<b>], so two different pairs of operation and
    role (or permission) can lead to one and the same method. *)
Theorem format_for_nests fn a b :
  format_for (format_for fn a) b = format_for fn (format_for a b).
Proof.
  unfold format_for. by rewrite !string_app_assoc.
Qed.
